(** * localize-router: route translation and locale selection

    A shallow embedding of the route parser ([LocalizeParser], with its
    [init], [translateRoutes], [_translateRouteTree], [translateRoute] and
    [getLocationLang]) and of the router service ([LocalizeRouterService],
    with [changeLanguage] and [_routeChanged]).

    JavaScript values are modelled as follows: a string is a [string]; a
    value that may be [undefined] or [null] is an [option]; an array is a
    [list], read by index with [!!] and written by index with [<[i:=x]>].
    A thrown [TypeError] is [None] in a function that only computes a
    value; an operation on the state yields the state it leaves and a
    flag, [false] when it threw. The fields of the objects are updated in
    place in the source; here each operation yields the new value of the
    object it has written to, and a snapshot of the router refers to the
    nodes of the live tree by their addresses. *)

From Stdlib Require Import ZArith Ascii String.
From stdpp Require Import base option list strings.

Local Open Scope nat_scope.

(** ** Strings: [String.prototype.split] and [Array.prototype.join] *)

Module Js.

(** [s.split(sep)] for a one-character separator: never the empty array. *)
Fixpoint split (sep : ascii) (s : string) : list string :=
  match s with
  | EmptyString => [EmptyString]
  | String c s' =>
      if Ascii.eqb c sep then EmptyString :: split sep s'
      else match split sep s' with
           | [] => [String c EmptyString]
           | w :: ws => String c w :: ws
           end
  end.

(** [l.join(sep)] on an array of strings. *)
Definition join (sep : string) (l : list string) : string :=
  String.concat sep l.

(** A string in a condition: only the empty string is falsy. *)
Definition truthy (s : string) : bool :=
  match s with EmptyString => false | String _ _ => true end.

(** A possibly-undefined string in a condition. *)
Definition otruthy (o : option string) : bool :=
  match o with Some s => truthy s | None => false end.

(** [a || b] on possibly-undefined strings. *)
Definition or_else (a b : option string) : option string :=
  if otruthy a then a else b.

(** [l.indexOf(x)]: the first index holding [x], or [-1]. *)
Fixpoint indexOf (l : list string) (x : string) : Z :=
  match l with
  | [] => (-1)%Z
  | y :: l' =>
      if decide (y = x) then 0%Z
      else let r := indexOf l' x in
           if (r =? -1)%Z then (-1)%Z else (r + 1)%Z
  end.

(** [l.slice(from)] and [l.slice(from, to)] for non-negative bounds. *)
Definition slice_from (l : list string) (from : Z) : list string :=
  drop (Z.to_nat from) l.

Definition slice (l : list string) (from to : Z) : list string :=
  take (Z.to_nat to - Z.to_nat from) (drop (Z.to_nat from) l).

End Js.

Definition slash : ascii := "/"%char.

(** ** The translation of one path: [translateRoute] *)

(** The observables [translateRoute] collects, one per path segment:
    [Observable.of(part)], which emits when subscribed to, or
    [translate.get(key)], which emits when the lookup provider answers. *)
Inductive Observable : Type :=
  | ObsOf (v : string)
  | ObsGet (key : string).

Section TranslateRoute.

(** [translate.get] under the provider's active locale. *)
Variable get : string -> string.
(** [this.prefix] *)
Variable prefix : string.

Definition segmentObservable (part : string) : Observable :=
  match String.length part with
  | O => ObsOf part
  | S _ => ObsGet (prefix +:+ part)
  end.

Definition routeObservables (pathSegments : list string) : list Observable :=
  segmentObservable <$> pathSegments.

(** What an observable emits. *)
Definition emitted (o : Observable) : string :=
  match o with
  | ObsOf v => v
  | ObsGet key => get key
  end.

(** [Observable.forkJoin] once every source has completed: the values in
    the order of the sources. *)
Definition forkJoin (obs : list Observable) : list string :=
  emitted <$> obs.

(** One turn of the [for] loop of the subscriber, at index [i]. *)
Definition sentinel_step (pathSegments translatedSegments : list string)
    (i : nat) : list string :=
  match translatedSegments !! i, pathSegments !! i with
  | Some t, Some p =>
      if decide (t = prefix +:+ p) then <[i := p]> translatedSegments
      else translatedSegments
  | _, _ => translatedSegments
  end.

(** [for (let i = 0; i < translatedSegments.length; i++) ...] *)
Definition sentinel_loop (pathSegments translatedSegments : list string)
    : list string :=
  foldl (sentinel_step pathSegments) translatedSegments
        (seq 0 (length translatedSegments)).

(** The array handed to [join] by the subscriber of [forkJoin]. *)
Definition translatedSegments (path : string) : list string :=
  let pathSegments := Js.split slash path in
  sentinel_loop pathSegments (forkJoin (routeObservables pathSegments)).

(** [translateRoute(path)], as the value its observable emits. *)
Definition translateRoute (path : string) : string :=
  Js.join "/" (translatedSegments path).

(** *** [forkJoin] under a schedule of answers

    The lookup provider answers the pending lookups in an order of its
    own: a schedule is the list of the indices it answers, in time order.
    [forkJoin] keeps one slot per source and emits once every slot is
    filled. *)

Definition subscribeAll (obs : list Observable) : list (option string) :=
  (fun o => match o with ObsOf v => Some v | ObsGet _ => None end) <$> obs.

Definition answer (obs : list Observable) (slots : list (option string))
    (i : nat) : list (option string) :=
  match obs !! i with
  | Some (ObsGet key) => <[i := Some (get key)]> slots
  | _ => slots
  end.

Definition forkJoin_sched (obs : list Observable) (sched : list nat)
    : option (list string) :=
  mapM id (foldl (answer obs) (subscribeAll obs) sched).

(** [translateRoute] under a schedule: [None] while [forkJoin] has not
    emitted. *)
Definition translateRoute_sched (path : string) (sched : list nat)
    : option string :=
  let pathSegments := Js.split slash path in
  (fun ts => Js.join "/" (sentinel_loop pathSegments ts))
    <$> forkJoin_sched (routeObservables pathSegments) sched.

(** The segment translator in the words of the specification: an empty
    segment passes through; a non-empty one is looked up under
    [prefix + segment], and a result equal to the key falls back to the
    segment. *)
Definition translateSegment_spec (segment : string) : string :=
  if decide (segment = "") then segment
  else let key := prefix +:+ segment in
       let r := get key in
       if decide (r = key) then segment else r.

End TranslateRoute.

(** A lookup provider over a table of translations, returning the key
    itself when the table has no entry. *)
Fixpoint table_get (table : list (string * string)) (key : string) : string :=
  match table with
  | [] => key
  | (k, v) :: table' => if decide (k = key) then v else table_get table' key
  end.


(** ** Route nodes

    A [Route] of the router, with the fields the parser reads and writes. *)
#[local] Unset Elimination Schemes.
Inductive Route : Type :=
  mkRoute {
    path : option string;
    redirectTo : option string;
    pathMatch : option string;
    children : option (list Route)
  }.

#[local] Set Elimination Schemes.

Abbreviation Routes := (list Route).

Definition set_path (v : option string) (r : Route) : Route :=
  mkRoute v (redirectTo r) (pathMatch r) (children r).

Definition set_children (v : option Routes) (r : Route) : Route :=
  mkRoute (path r) (redirectTo r) (pathMatch r) v.

(** [JSON.parse(JSON.stringify(routes))]: a fresh tree with the same
    fields, an absent field staying absent. *)
Fixpoint json_clone_route (r : Route) : Route :=
  match r with
  | mkRoute p rd pm ch =>
      mkRoute p rd pm
        (match ch with
         | None => None
         | Some cs => Some (json_clone_route <$> cs)
         end)
  end.

Definition json_clone (routes : Routes) : Routes :=
  json_clone_route <$> routes.

(** *** Aligned trees

    The live tree and the original tree are aligned when they have the
    same shape: the same number of nodes at every level, children under
    the same nodes, and [path] and [redirectTo] present in the same nodes;
    only the strings may differ. *)

Definition defined (o : option string) : bool :=
  match o with Some _ => true | None => false end.

Definition forallb2 {A B : Type} (f : A -> B -> bool)
    : list A -> list B -> bool :=
  fix go (l : list A) (k : list B) : bool :=
    match l, k with
    | [], [] => true
    | x :: l', y :: k' => f x y && go l' k'
    | _, _ => false
    end.

Fixpoint same_shape (live original : Route) {struct live} : bool :=
  match live with
  | mkRoute p rd _ ch =>
      Bool.eqb (defined p) (defined (path original))
      && Bool.eqb (defined rd) (defined (redirectTo original))
      && match ch, children original with
         | None, None => true
         | Some cs, Some os => forallb2 same_shape cs os
         | _, _ => false
         end
  end.

Definition aligned (routes originals : Routes) : bool :=
  forallb2 same_shape routes originals.

(** ** The route tree translator: [_translateRouteTree]

    A call yields the tree after the writes and a flag: [true] when the
    call returned, [false] when it threw a [TypeError] (reading a property
    of [undefined]); in that case the writes made before the throw stay. *)

(** [array.forEach((x, index) => ...)], stopping at the first throw. *)
Definition forEach_from {A : Type} (f : nat -> A -> A * bool)
    : nat -> list A -> list A * bool :=
  fix go (index : nat) (l : list A) : list A * bool :=
    match l with
    | [] => ([], true)
    | x :: l' =>
        let '(x', ok) := f index x in
        if ok then let '(l'', ok') := go (S index) l' in (x' :: l'', ok')
        else (x' :: l', false)
    end.

Section RouteTree.

Variable get : string -> string.
Variable prefix : string.

(** [_getTranslatePromise(target, destination, property)] once its
    observable has emitted: the new value of [destination[property]], or
    [None] for the [TypeError] of [target[property]] on an undefined
    [target] and of [path.split] on an undefined [path]. *)
Definition _getTranslatePromise (target : option Route)
    (property : Route -> option string) : option string :=
  src ← target ≫= property;
  Some (translateRoute get prefix src).

(** The body of the [forEach] callback for one [route], [original]
    being [originals[index]]. *)
Fixpoint translateNode (original : option Route) (route : Route)
    {struct route} : Route * bool :=
  match route with
  | mkRoute p rd pm ch =>
      match (if Js.otruthy p
             then Some <$> _getTranslatePromise original path
             else Some p) with
      | None => (route, false)
      | Some p' =>
          match (if Js.otruthy rd
                 then Some <$> _getTranslatePromise original redirectTo
                 else Some rd) with
          | None => (mkRoute p' rd pm ch, false)
          | Some rd' =>
              match ch with
              | None => (mkRoute p' rd' pm None, true)
              | Some cs =>
                  match original with
                  | None => (mkRoute p' rd' pm ch, false)
                  | Some o =>
                      let '(cs', ok) :=
                        forEach_from
                          (fun index c =>
                             match children o with
                             | None => (c, false)
                             | Some os => translateNode (os !! index) c
                             end) 0 cs in
                      (mkRoute p' rd' pm (Some cs'), ok)
                  end
              end
          end
      end
  end.

Definition _translateRouteTree (routes : Routes) (originals : option Routes)
    : Routes * bool :=
  forEach_from
    (fun index route =>
       match originals with
       | None => (route, false)
       | Some os => translateNode (os !! index) route
       end) 0 routes.

End RouteTree.

(** ** The route tree translator with pending lookups

    When the lookup provider answers later, each call of
    [_getTranslatePromise] leaves a pending translation: its observable
    writes [destination[property]] when it emits, and the promise made
    from it settles at that time. (The observable is subscribed to twice,
    by [subscribe] and by [toPromise]; the provider is taken to answer both
    together.) [_translateRouteTree] returns [Promise.all(promises)] of the
    promises it has pushed. *)

Inductive Property : Type := PropPath | PropRedirectTo.

(** A pending translation: the string read from the original node, and
    the live node (by its address below the translated array) and property
    the result is written to. *)
Record Task : Type := mkTask {
  source : string;
  destination : list nat;
  property : Property
}.

#[global] Instance Property_eq_dec : EqDecision Property.
Proof. solve_decision. Defined.

#[global] Instance Task_eq_dec : EqDecision Task.
Proof. solve_decision. Defined.

Definition property_of (property : Property) : Route -> option string :=
  match property with
  | PropPath => path
  | PropRedirectTo => redirectTo
  end.

(** [array.forEach] threading a state, [None] at the first throw. *)
Definition forEachM {A St : Type} (f : nat -> A -> St -> option St)
    : nat -> list A -> St -> option St :=
  fix go (index : nat) (l : list A) (s : St) : option St :=
    match l with
    | [] => Some s
    | x :: l' => s' ← f index x s; go (S index) l' s'
    end.

(** The state threaded through one call of [_translateRouteTree]: the
    local array [promises] of the call, and the translations started so
    far by all calls. *)
Abbreviation Started := (list Task * list Task)%type.

(** [promises.push(this._getTranslatePromise(original, route, property))] *)
Definition push_translatePromise (original : option Route)
    (addr : list nat) (property : Property) (s : Started) : option Started :=
  src ← original ≫= property_of property;
  let t := mkTask src addr property in
  Some (s.1 ++ [t], s.2 ++ [t]).

(** The [forEach] callback of [_translateRouteTree] for the [route] at
    address [addr]. The recursive call starts with a [promises] array of
    its own, and its returned promise is dropped: only the translations it
    has started remain. *)
Fixpoint startNode (original : option Route) (addr : list nat)
    (route : Route) (s : Started) {struct route} : option Started :=
  match route with
  | mkRoute p rd _ ch =>
      s1 ← (if Js.otruthy p
            then push_translatePromise original addr PropPath s
            else Some s);
      s2 ← (if Js.otruthy rd
            then push_translatePromise original addr PropRedirectTo s1
            else Some s1);
      match ch with
      | None => Some s2
      | Some cs =>
          o ← original;
          inner ← forEachM
                    (fun index c s' =>
                       os ← children o;
                       startNode (os !! index) (addr ++ [index]) c s')
                    0 cs ([], s2.2);
          Some (s2.1, inner.2)
      end
  end.

(** [_translateRouteTree(routes, originals)] with pending lookups: the
    promises under the returned [Promise.all], and every translation
    started. *)
Definition startRouteTree (routes : Routes) (originals : option Routes)
    : option Started :=
  forEachM
    (fun index route s =>
       os ← originals; startNode (os !! index) [index] route s)
    0 routes ([], []).

Definition set_property (property : Property) (v : option string)
    (r : Route) : Route :=
  match property with
  | PropPath => mkRoute v (redirectTo r) (pathMatch r) (children r)
  | PropRedirectTo => mkRoute (path r) v (pathMatch r) (children r)
  end.

(** The write [destination[property] = result] on the node at [addr]. *)
Fixpoint write_at (property : Property) (v : string) (addr : list nat)
    (rs : Routes) : Routes :=
  match addr with
  | [] => rs
  | i :: addr' =>
      alter (fun r =>
               match addr' with
               | [] => set_property property (Some v) r
               | _ :: _ =>
                   set_children (write_at property v addr' <$> children r) r
               end) i rs
  end.

(** The array of routes at an address: the whole array at [[]], the
    children of the node at [addr] otherwise; and its replacement. *)
Fixpoint list_at (rs : Routes) (addr : list nat) : option Routes :=
  match addr with
  | [] => Some rs
  | i :: addr' => r ← rs !! i; cs ← children r; list_at cs addr'
  end.

Fixpoint update_list_at (g : Routes -> Routes) (addr : list nat)
    (rs : Routes) : Routes :=
  match addr with
  | [] => g rs
  | i :: addr' =>
      alter (fun r => set_children (update_list_at g addr' <$> children r) r)
        i rs
  end.

(** One entry less in the list of the pending translations. *)
Fixpoint remove_first (t : Task) (l : list Task) : list Task :=
  match l with
  | [] => []
  | x :: l' => if decide (x = t) then l' else x :: remove_first t l'
  end.

(** The live tree and the translations still pending. *)
Record Pending : Type := mkPending {
  live : Routes;
  pending : list Task
}.

Section PendingTree.

Variable get : string -> string.
Variable prefix : string.

(** The write of translation [t], when its observable emits. *)
Definition write_task (rs : Routes) (t : Task) : Routes :=
  write_at (property t) (translateRoute get prefix (source t))
    (destination t) rs.

(** The provider answers the lookups of translation [t]. *)
Definition complete (w : Pending) (t : Task) : Pending :=
  if decide (t ∈ pending w) then
    mkPending (write_task (live w) t) (remove_first t (pending w))
  else w.

(** The provider answers in the order of [sched]. *)
Definition run (w : Pending) (sched : list Task) : Pending :=
  foldl complete w sched.

(** [Promise.all(promises)] has settled. *)
Definition settled (promises : list Task) (w : Pending) : bool :=
  forallb (fun t => bool_decide (t ∉ pending w)) promises.

End PendingTree.

(** ** The parser: [LocalizeParser]

    The state of a parser and of its collaborators: the translation
    service, the window with its storage, the location, and the trace of
    the calls made on the collaborators. *)

Record TranslateService : Type := mkTranslateService {
  ts_currentLang : option string;
  ts_defaultLang : option string
}.

Inductive Effect : Type :=
  | TranslateUse (language : option string)
  | TranslateSetDefaultLang (language : option string)
  | SetCurrentLang (language : option string)
  | StorageSetItem (value : string)
  | Navigate (url : string)
  | NavigateByUrl (url : string)
  | RouterEventsNext (lang : string).

Record Parser : Type := mkParser {
  locales : list string;
  prefix : string;
  currentLang : option string;
  routes : option Routes;
  originalRouteNames : option Routes;
  translate : TranslateService;
  (** [typeof window] and [typeof window.localStorage] are defined *)
  window_defined : bool;
  (** [window.localStorage.getItem(LOCALIZE_LOCAL_STORAGE)] *)
  localStorage : option string;
  (** [translate.getBrowserLang()] *)
  browserLang : option string;
  (** [location.pathname] *)
  location_pathname : string;
  (** the calls made so far, oldest first *)
  trace : list Effect
}.

Definition set_currentLang (v : option string) (st : Parser) : Parser :=
  mkParser (locales st) (prefix st) v (routes st) (originalRouteNames st)
    (translate st) (window_defined st) (localStorage st) (browserLang st)
    (location_pathname st) (trace st ++ [SetCurrentLang v]).

Definition set_routes (v : option Routes) (st : Parser) : Parser :=
  mkParser (locales st) (prefix st) (currentLang st) v (originalRouteNames st)
    (translate st) (window_defined st) (localStorage st) (browserLang st)
    (location_pathname st) (trace st).

Definition set_originalRouteNames (v : option Routes) (st : Parser) : Parser :=
  mkParser (locales st) (prefix st) (currentLang st) (routes st) v
    (translate st) (window_defined st) (localStorage st) (browserLang st)
    (location_pathname st) (trace st).

Definition emit (e : Effect) (st : Parser) : Parser :=
  mkParser (locales st) (prefix st) (currentLang st) (routes st)
    (originalRouteNames st) (translate st) (window_defined st)
    (localStorage st) (browserLang st) (location_pathname st)
    (trace st ++ [e]).

(** [translate.use(language)] *)
Definition translate_use (language : option string) (st : Parser) : Parser :=
  mkParser (locales st) (prefix st) (currentLang st) (routes st)
    (originalRouteNames st)
    (mkTranslateService language (ts_defaultLang (translate st)))
    (window_defined st) (localStorage st) (browserLang st)
    (location_pathname st) (trace st ++ [TranslateUse language]).

(** [translate.setDefaultLang(language)] *)
Definition translate_setDefaultLang (language : option string) (st : Parser)
    : Parser :=
  mkParser (locales st) (prefix st) (currentLang st) (routes st)
    (originalRouteNames st)
    (mkTranslateService (ts_currentLang (translate st)) language)
    (window_defined st) (localStorage st) (browserLang st)
    (location_pathname st) (trace st ++ [TranslateSetDefaultLang language]).

(** [translate.getDefaultLang()] *)
Definition translate_getDefaultLang (st : Parser) : option string :=
  ts_defaultLang (translate st).

(** A value written where a string is expected: [undefined] is stored as
    the string it converts to. *)
Definition js_string (v : option string) : string :=
  default "undefined" v.

(** [this.locales.indexOf(value) !== -1] *)
Definition in_locales (st : Parser) (value : string) : bool :=
  negb (Js.indexOf (locales st) value =? -1)%Z.

Definition _returnIfInLocales (value : option string) (st : Parser)
    : option string :=
  match value with
  | Some v => if Js.truthy v && in_locales st v then Some v else None
  | None => None
  end.

Definition _getBrowserLang (st : Parser) : option string :=
  _returnIfInLocales (browserLang st) st.

(** The getter [_cachedLang] *)
Definition _cachedLang (st : Parser) : option string :=
  if window_defined st then _returnIfInLocales (localStorage st) st
  else None.

(** The setter [_cachedLang] *)
Definition set_cachedLang (value : option string) (st : Parser) : Parser :=
  if window_defined st then
    mkParser (locales st) (prefix st) (currentLang st) (routes st)
      (originalRouteNames st) (translate st) (window_defined st)
      (Some (js_string value)) (browserLang st) (location_pathname st)
      (trace st ++ [StorageSetItem (js_string value)])
  else st.

Definition slice_in_locales (st : Parser) (pathSlices : list string)
    (i : nat) : bool :=
  match pathSlices !! i with
  | Some s => in_locales st s
  | None => false
  end.

Definition getLocationLang (url : option string) (st : Parser)
    : option string :=
  let pathSlices :=
    Js.split slash (match url with
                    | Some u => if Js.truthy u then u else location_pathname st
                    | None => location_pathname st
                    end) in
  if (1 <? length pathSlices) && slice_in_locales st pathSlices 1
  then pathSlices !! 1
  else if (0 <? length pathSlices) && slice_in_locales st pathSlices 0
  then pathSlices !! 0
  else None.

(** [this.routes[1].children] *)
Definition container_children (st : Parser) : option Routes :=
  live ← routes st; container ← live !! 1; children container.

(** The translated array [routes[1].children] is aligned with
    [originalRouteNames]. *)
Definition aligned_parser (st : Parser) : Prop :=
  ∃ cs os,
    container_children st = Some cs
    ∧ originalRouteNames st = Some os
    ∧ aligned cs os = true.

(** The cached locale preference as stored: the item of the storage when
    there is a window. *)
Definition stored_locale (st : Parser) : option string :=
  if window_defined st then localStorage st else None.

(** The active locale is unset or a member of the locale set. *)
Definition active_locale_ok (st : Parser) : Prop :=
  match currentLang st with
  | None => True
  | Some l => l ∈ locales st
  end.

(** A parser as its constructor leaves it ([ManualParserLoader] with its
    [locales] and [prefix]), in a given environment. *)
Definition new_parser (locales : list string) (prefix : string)
    (window_defined : bool) (localStorage browserLang : option string)
    (location_pathname : string) : Parser :=
  mkParser locales prefix None None None (mkTranslateService None None)
    window_defined localStorage browserLang location_pathname [].

(** A lookup provider with one table of translations per language. *)
Definition table_provider (tables : list (string * list (string * string)))
    (service : TranslateService) (key : string) : string :=
  match ts_currentLang service with
  | Some lang =>
      match list_find (fun e => e.1 = lang) tables with
      | Some (_, (_, table)) => table_get table key
      | None => key
      end
  | None => key
  end.

Section Parser.

(** [translate.get(key)], which depends on the languages the service has
    been given. *)
Variable provider : TranslateService -> string -> string.

(** [translateRoutes(language)]: the state when the returned promise
    has settled, and whether the call returned ([false] for a
    [TypeError]). *)
Definition translateRoutes (language : option string) (st : Parser)
    : Parser * bool :=
  let st := translate_use language st in
  let st := set_currentLang language st in
  let st := set_cachedLang language st in
  match routes st with
  | None => (st, false)
  | Some live =>
      match live !! 1 with
      | None => (st, false)
      | Some container =>
          let container := set_path language container in
          match children container with
          | None => (set_routes (Some (<[1 := container]> live)) st, false)
          | Some cs =>
              let '(cs', ok) :=
                _translateRouteTree (provider (translate st)) (prefix st)
                  cs (originalRouteNames st) in
              (set_routes
                 (Some (<[1 := set_children (Some cs') container]> live))
                 st, ok)
          end
      end
  end.

(** The initial locale of the first [init]: the value of
    [selectedLanguage], with [defaultLanguage] beside it. *)
Definition defaultLanguage (st : Parser) : option string :=
  Js.or_else (_cachedLang st)
    (Js.or_else (_getBrowserLang st) (locales st !! 0)).

Definition selectedLanguage (st : Parser) : option string :=
  Js.or_else (getLocationLang None st) (defaultLanguage st).

(** [init(routes)]: the later loads when [this.routes] is set, the first
    load otherwise. *)
Definition init (new_routes : Routes) (st : Parser) : Parser * bool :=
  match routes st with
  | Some live =>
      let selected := currentLang st in
      match originalRouteNames st with
      | None => (st, false)
      | Some originals =>
          let st :=
            set_originalRouteNames (Some (json_clone new_routes ++ originals))
              st in
          match live !! 1 with
          | None => (st, false)
          | Some container =>
              match children container with
              | None => (st, false)
              | Some cs =>
                  let container :=
                    set_children (Some (new_routes ++ cs)) container in
                  translateRoutes selected
                    (set_routes (Some (<[1 := container]> live)) st)
              end
          end
      end
  | None =>
      let st := set_routes (Some new_routes) st in
      let st := set_originalRouteNames (Some (json_clone new_routes)) st in
      match length (locales st) with
      | O => (st, true)
      | S _ =>
          let selected := selectedLanguage st in
          let st := translate_setDefaultLang (defaultLanguage st) st in
          let children := new_routes in
          let root :=
            [ mkRoute (Some "") (translate_getDefaultLang st) (Some "full")
                None;
              mkRoute None None None (Some children) ] in
          translateRoutes selected (set_routes (Some root) st)
      end
  end.

End Parser.

(** The precedence of the initial locale in the words of the
    specification, as a property of the [resolved] locale: (1) a member of
    the locale set found in the first or second component of the url path;
    (2) the cached locale if non-empty and a member; (3) the client locale
    if a member; (4) the first element of the set. *)
Definition url_locale (components localeSet : list string) (l : string)
    : Prop :=
  l ∈ localeSet ∧ (components !! 0 = Some l ∨ components !! 1 = Some l).

Definition valid_cached (cachedLocale : option string)
    (localeSet : list string) (c : string) : Prop :=
  cachedLocale = Some c ∧ c ≠ "" ∧ c ∈ localeSet.

Definition valid_client (clientLocale : option string)
    (localeSet : list string) (b : string) : Prop :=
  clientLocale = Some b ∧ b ∈ localeSet.

Definition first_match_precedence (resolved : option string)
    (urlPath : string) (cachedLocale clientLocale : option string)
    (localeSet : list string) : Prop :=
  let components := Js.split slash urlPath in
  ((∃ l, url_locale components localeSet l) →
   ∃ l, resolved = Some l ∧ url_locale components localeSet l)
  ∧ (¬ (∃ l, url_locale components localeSet l) →
     (∀ c, valid_cached cachedLocale localeSet c → resolved = Some c)
     ∧ (¬ (∃ c, valid_cached cachedLocale localeSet c) →
        (∀ b, valid_client clientLocale localeSet b → resolved = Some b)
        ∧ (¬ (∃ b, valid_client clientLocale localeSet b) →
           resolved = localeSet !! 0))).

(** ** The router service: [LocalizeRouterService] *)

(** A snapshot of the activated route. Its [routeConfig] is a reference to
    a node of the live route tree, given here by the node's address: the
    indices from the root array down. The node is read through the tree as
    it is when the snapshot is walked. *)
#[local] Unset Elimination Schemes.
Inductive ActivatedRouteSnapshot : Type :=
  mkSnapshot {
    routeConfig : option (list nat);
    url : list string;
    firstChild : option ActivatedRouteSnapshot
  }.
#[local] Set Elimination Schemes.

Fixpoint route_at (rs : Routes) (addr : list nat) : option Route :=
  match addr with
  | [] => None
  | i :: addr' =>
      r ← rs !! i;
      match addr' with
      | [] => Some r
      | _ :: _ => cs ← children r; route_at cs addr'
      end
  end.

(** [snapshot.routeConfig], read in the live tree. *)
Definition config (live : Routes) (snapshot : ActivatedRouteSnapshot)
    : option Route :=
  addr ← routeConfig snapshot; route_at live addr.

(** [s.indexOf(':') === 0] *)
Definition is_placeholder (s : string) : bool :=
  match s with
  | String c _ => Ascii.eqb c ":"%char
  | EmptyString => false
  end.

(** [subPathSegments.map((s, i) => ...)], with the [TypeError] of
    [snapshot.url[i].path] past the end of [url]. *)
Definition substitute (url : list string) (subPathSegments : list string)
    : option (list string) :=
  mapM id (imap (fun i s => if is_placeholder s then url !! i else Some s)
                subPathSegments).

Record LocalizeRouterSettings : Type := mkSettings {
  alwaysSetPrefix : bool
}.

(** A router event: its [url], and whether it is a [NavigationStart]. *)
Record RouterEvent : Type := mkEvent {
  ev_url : option string;
  ev_isNavigationStart : bool
}.

(** The url rewriting of [changeLanguage] when [alwaysSetPrefix] is off.
    [defaultLang] is [parser.defaultLang], a field of the parser that the
    service reads. *)
Definition prefixPolicy (currentLang : option string) (defaultLang : string)
    (url : string) : string :=
  let urlSegments := Js.split slash url in
  let languageSegmentIndex :=
    match currentLang with
    | Some l => Js.indexOf urlSegments l
    | None => (-1)%Z
    end in
  let urlSegments :=
    if decide (currentLang = Some defaultLang) then
      if (languageSegmentIndex =? 0)%Z
         || ((languageSegmentIndex =? 1)%Z
             && bool_decide (urlSegments !! 0 = Some ""))
      then Js.slice urlSegments 0 languageSegmentIndex
             ++ Js.slice_from urlSegments (languageSegmentIndex + 1)
      else urlSegments
    else
      if (languageSegmentIndex =? -1)%Z then
        let injectionIndex :=
          if bool_decide (urlSegments !! 0 = Some "") then 1%Z else 0%Z in
        Js.slice urlSegments 0 injectionIndex
          ++ [default "" currentLang]
          ++ Js.slice_from urlSegments injectionIndex
      else urlSegments in
  Js.join "/" urlSegments.

(** [promise.subscribe(subscriber)]. What [translateRoutes] of the parser
    returns is the promise of [Promise.all], and a promise has no
    [subscribe]: the call throws a [TypeError] and the subscriber is not
    run. *)
Definition Promise_subscribe (subscriber : Parser -> Parser * bool)
    (st : Parser) : Parser * bool :=
  (st, false).

Module Service.
Section Service.

Variable provider : TranslateService -> string -> string.
Variable settings : LocalizeRouterSettings.
Variable defaultLang : string.

Definition parseSegmentValue (live : Routes)
    (snapshot : ActivatedRouteSnapshot) : option string :=
  match config live snapshot with
  | Some rc =>
      if decide (path rc = Some "**") then
        Some (Js.join "/" (filter (fun s => Js.truthy s = true) (url snapshot)))
      else
        p ← path rc;
        segs ← substitute (url snapshot) (Js.split slash p);
        Some (Js.join "/" segs)
  | None => Some ""
  end.

Fixpoint traverseRouteSnapshot (live : Routes)
    (snapshot : ActivatedRouteSnapshot) {struct snapshot} : option string :=
  match snapshot with
  | mkSnapshot _ _ (Some child) =>
      if Js.otruthy (config live child ≫= path) then
        if decide (config live child ≫= path ≠ Some "**") then
          a ← parseSegmentValue live snapshot;
          b ← traverseRouteSnapshot live child;
          Some (a +:+ "/" +:+ b)
        else parseSegmentValue live child
      else parseSegmentValue live snapshot
  | mkSnapshot _ _ None => parseSegmentValue live snapshot
  end.

(** The subscriber of [changeLanguage]: the arrow function handed to
    [subscribe]. It reads the parser and the live tree as they are when it
    is run; [extras] is handed on to the router untouched. *)
Definition changeLanguage_subscriber (rootSnapshot : ActivatedRouteSnapshot)
    (useNavigateMethod : bool) (st : Parser) : Parser * bool :=
  match routes st ≫= (fun live => traverseRouteSnapshot live rootSnapshot)
  with
  | None => (st, false)
  | Some url =>
      let url :=
        if alwaysSetPrefix settings then url
        else prefixPolicy (currentLang st) defaultLang url in
      (emit (if useNavigateMethod then Navigate url
             else NavigateByUrl url) st, true)
  end.

(** [changeLanguage(lang, extras, useNavigateMethod)]: the subscriber is
    handed to [subscribe] of what [parser.translateRoutes(lang)] has
    returned. *)
Definition changeLanguage (rootSnapshot : ActivatedRouteSnapshot)
    (lang : string) (useNavigateMethod : bool) (st : Parser)
    : Parser * bool :=
  if decide (Some lang = currentLang st) then (st, true)
  else
    let '(st, ok) := translateRoutes provider (Some lang) st in
    if ok then
      Promise_subscribe
        (changeLanguage_subscriber rootSnapshot useNavigateMethod) st
    else (st, false).

End Service.
End Service.

(** The service of [src/localize-router.service.ts], which has no settings
    and always navigates by url. *)
Module Legacy.
Section Legacy.

Variable provider : TranslateService -> string -> string.

Definition parseSegmentValue (live : Routes)
    (snapshot : ActivatedRouteSnapshot) : option string :=
  match config live snapshot with
  | Some rc =>
      p ← path rc;
      segs ← substitute (url snapshot) (Js.split slash p);
      Some (Js.join "/" segs)
  | None => Some ""
  end.

Fixpoint traverseRouteSnapshot (live : Routes)
    (snapshot : ActivatedRouteSnapshot) {struct snapshot} : option string :=
  match snapshot with
  | mkSnapshot _ _ (Some child) =>
      if Js.otruthy (config live child ≫= path) then
        a ← parseSegmentValue live snapshot;
        b ← traverseRouteSnapshot live child;
        Some (a +:+ "/" +:+ b)
      else parseSegmentValue live snapshot
  | mkSnapshot _ _ None => parseSegmentValue live snapshot
  end.

(** The subscriber of [changeLanguage], which navigates to the url
    rebuilt from the snapshot. *)
Definition changeLanguage_subscriber (rootSnapshot : ActivatedRouteSnapshot)
    (st : Parser) : Parser * bool :=
  match routes st ≫= (fun live => traverseRouteSnapshot live rootSnapshot)
  with
  | None => (st, false)
  | Some url => (emit (NavigateByUrl url) st, true)
  end.

Definition changeLanguage (rootSnapshot : ActivatedRouteSnapshot)
    (lang : string) (st : Parser) : Parser * bool :=
  if decide (Some lang = currentLang st) then (st, true)
  else
    let '(st, ok) := translateRoutes provider (Some lang) st in
    if ok then Promise_subscribe (changeLanguage_subscriber rootSnapshot) st
    else (st, false).

(** The subscriber of the route-change handler, which fires the route
    change event. *)
Definition routeChanged_subscriber (lang : string) (st : Parser)
    : Parser * bool :=
  (emit (RouterEventsNext lang) st, true).

(** The handler returned by [_routeChanged()], applied to an event. *)
Definition _routeChanged (event : RouterEvent) (st : Parser)
    : Parser * bool :=
  match getLocationLang (ev_url event) st with
  | Some lang =>
      if ev_isNavigationStart event && Js.truthy lang
         && bool_decide (Some lang ≠ currentLang st)
      then
        let '(st, ok) := translateRoutes provider (Some lang) st in
        if ok then Promise_subscribe (routeChanged_subscriber lang) st
        else (st, false)
      else (st, true)
  | None => (st, true)
  end.

End Legacy.
End Legacy.

(** ** Further parts of the parser and of the service *)

(** A segment without ['/']: what [split] yields. *)
Fixpoint no_slash (s : string) : bool :=
  match s with
  | EmptyString => true
  | String c s' => negb (Ascii.eqb c slash) && no_slash s'
  end.

(** What the translation leaves alone in a tree: the nodes, their order,
    their [pathMatch] and their children, without [path] and
    [redirectTo]. *)
Fixpoint skeleton (r : Route) : Route :=
  match r with
  | mkRoute _ _ pm ch =>
      mkRoute None None pm
        (match ch with
         | None => None
         | Some cs => Some (skeleton <$> cs)
         end)
  end.

(** No node of the snapshot chain is matched by a wildcard route. *)
Fixpoint no_wildcard (live : Routes) (snapshot : ActivatedRouteSnapshot)
    {struct snapshot} : bool :=
  match snapshot with
  | mkSnapshot rc _ fc =>
      negb (bool_decide ((rc ≫= route_at live) ≫= path = Some "**"))
      && match fc with
         | Some child => no_wildcard live child
         | None => true
         end
  end.

(** [this.locales = ...; this.prefix = ...] *)
Definition set_config (new_locales : list string) (new_prefix : string)
    (st : Parser) : Parser :=
  mkParser new_locales new_prefix (currentLang st) (routes st)
    (originalRouteNames st) (translate st) (window_defined st)
    (localStorage st) (browserLang st) (location_pathname st) (trace st).

(** [ManualParserLoader]: [load(routes)] resolves when [init(routes)]
    does. *)
Module ManualParserLoader.

Definition load (provider : TranslateService -> string -> string)
    (routes : Routes) (st : Parser) : Parser * bool :=
  init provider routes st.

End ManualParserLoader.

(** [StaticParserLoader]: the locales and the prefix come from a document
    fetched on the first [load]. *)
Module StaticParserLoader.

(** [ILocalizeRouteConfig] *)
Record ILocalizeRouteConfig : Type := mkConfig {
  cfg_locales : list string;
  cfg_prefix : string
}.

(** The loader: its parser fields, [_dataLoaded], and the number of calls
    of [http.get] made so far. *)
Record Loader : Type := mkLoader {
  parser : Parser;
  _dataLoaded : bool;
  http_gets : nat
}.

(** [new StaticParserLoader(translate, http, path)] around a parser
    without routes. *)
Definition new_loader (st : Parser) : Loader := mkLoader st false 0.

(** [load(routes)], [data] being the document the server answers with if
    it is asked. *)
Definition load (provider : TranslateService -> string -> string)
    (data : ILocalizeRouteConfig) (routes : Routes) (ld : Loader)
    : Loader * bool :=
  if _dataLoaded ld then
    let '(st, ok) := init provider routes (parser ld) in
    (mkLoader st true (http_gets ld), ok)
  else
    let '(st, ok) :=
      init provider routes
        (set_config (cfg_locales data) (cfg_prefix data) (parser ld)) in
    (mkLoader st true (S (http_gets ld)), ok).

End StaticParserLoader.

(** [LocalizeRouterService.translateRoute(path)] of the service with
    settings. The parser's [translateRoute] and [urlPrefix] are those of
    the parser this service is used with: [R] is what that
    [translateRoute] returns and [render] its conversion in a template
    string. A segment of an array is a string or any other value. *)
Module RouteLinks.

Inductive Segment (A : Type) : Type :=
  | SegString (s : string)
  | SegOther (a : A).

Inductive Translated (A R : Type) : Type :=
  | Prefixed (s : string)
  | Result (r : R)
  | Other (a : A).

Arguments SegString {A} s.
Arguments SegOther {A} a.
Arguments Prefixed {A R} s.
Arguments Result {A R} r.
Arguments Other {A R} a.

(** [!path.indexOf('/')]: the string begins with ['/']. *)
Definition starts_with_slash (s : string) : bool :=
  match s with
  | String c _ => Ascii.eqb c slash
  | EmptyString => false
  end.

Section RouteLinks.

Context {A R : Type}.
Variable parser_translateRoute : string -> R.
Variable render : R -> string.
Variable urlPrefix : string.

(** The branch [typeof path === 'string']. *)
Definition translateRoute_string (path : string) : Translated A R :=
  let result := parser_translateRoute path in
  if starts_with_slash path
  then Prefixed ("/" +:+ urlPrefix +:+ render result)
  else Result result.

(** The callback of [forEach], which pushes one element to [result]. *)
Definition push_segment (acc : list (Translated A R) * nat)
    (segment : Segment A) : list (Translated A R) * nat :=
  let '(result, index) := acc in
  (result ++
     [match segment with
      | SegString s =>
          let res := parser_translateRoute s in
          if (index =? 0) && starts_with_slash s
          then Prefixed ("/" +:+ urlPrefix +:+ render res)
          else Result res
      | SegOther a => Other a
      end],
   S index).

(** The branch for an array. *)
Definition translateRoute_array (path : list (Segment A))
    : list (Translated A R) :=
  (foldl push_segment ([], 0) path).1.

End RouteLinks.
End RouteLinks.

(** ** The scenario of the specification

    The locale set [["en"; "fr"]], the prefix ["ROUTES."], a table for
    [fr] with [ROUTES.about -> a-propos], and a small route tree. *)

Definition scenario_provider : TranslateService -> string -> string :=
  table_provider [("fr", [("ROUTES.about", "a-propos")])].

Definition scenario_routes : Routes :=
  [ mkRoute (Some "about") None None None;
    mkRoute (Some "user/:id") None None
      (Some [mkRoute (Some "about") None None None]) ].

Definition scenario_parser (pathname : string) : Parser :=
  new_parser ["en"; "fr"] "ROUTES." true None None pathname.

(** The parser after its first [load], entered at [pathname]. *)
Definition scenario_loaded (pathname : string) : Parser :=
  (init scenario_provider scenario_routes (scenario_parser pathname)).1.

(** The snapshot of the url [/<lang>/<about>]: the root, the locale
    container, and the first route below it. *)
Definition scenario_snapshot (lang about : string) : ActivatedRouteSnapshot :=
  mkSnapshot None []
    (Some (mkSnapshot (Some [1]) [lang]
             (Some (mkSnapshot (Some [1; 0]) [about] None)))).

(** * Properties *)

(** ** Strings *)

Lemma split_nonempty sep s : Js.split sep s ≠ [].
Proof.
  destruct s as [|c s]; simpl; [done|].
  destruct (Ascii.eqb c sep); [done|].
  by destruct (Js.split sep s).
Qed.

Lemma length_zero_empty (s : string) : String.length s = 0 ↔ s = "".
Proof. destruct s; simpl; split; congruence. Qed.

(** ** [translateRoute] *)

Section TranslateRouteFacts.

Variable get : string -> string.
Variable prefix : string.

Local Abbreviation fallback :=
  (fun p t : string => if decide (t = prefix +:+ p) then p else t).

Lemma sentinel_step_length ps ts i :
  length (sentinel_step prefix ps ts i) = length ts.
Proof.
  unfold sentinel_step.
  destruct (ts !! i), (ps !! i); try done.
  case_decide; [by rewrite length_insert | done].
Qed.

(** After [n] turns the first [n] slots hold their final value and the
    others are untouched. *)
Lemma sentinel_prefix_done ps ts n :
  length ps = length ts → n ≤ length ts →
  foldl (sentinel_step prefix ps) ts (seq 0 n)
  = zip_with fallback (take n ps) (take n ts) ++ drop n ts.
Proof.
  intros Hlen. induction n as [|n IH]; intros Hn.
  - by rewrite drop_0.
  - rewrite seq_S, foldl_app, IH by lia. simpl.
    destruct (lookup_lt_is_Some_2 ts n) as [t Ht]; [lia|].
    destruct (lookup_lt_is_Some_2 ps n) as [p Hp]; [lia|].
    assert (Hz : length (zip_with fallback (take n ps) (take n ts)) = n).
    { rewrite length_zip_with, !length_take. lia. }
    unfold sentinel_step.
    rewrite lookup_app_r, Hz, Nat.sub_diag, lookup_drop, Nat.add_0_r, Ht, Hp
      by lia.
    rewrite (take_S_r ps n p Hp), (take_S_r ts n t Ht).
    rewrite zip_with_app by (rewrite !length_take; lia).
    rewrite (drop_S ts t n Ht). simpl.
    case_decide as Heq.
    + rewrite insert_app_r_alt, Hz, Nat.sub_diag by lia. simpl.
      by rewrite <- app_assoc.
    + by rewrite <- app_assoc.
Qed.

Lemma sentinel_loop_zip ps ts :
  length ps = length ts →
  sentinel_loop prefix ps ts = zip_with fallback ps ts.
Proof.
  intros Hlen. unfold sentinel_loop.
  rewrite sentinel_prefix_done by (done || lia).
  rewrite drop_all, app_nil_r, firstn_all, <- Hlen at 1.
  by rewrite firstn_all.
Qed.

Lemma fallback_segment (p : string) :
  fallback p (emitted get (segmentObservable prefix p))
  = translateSegment_spec get prefix p.
Proof.
  unfold segmentObservable, translateSegment_spec.
  destruct p as [|c p]; simpl.
  - by case_decide.
  - done.
Qed.

Lemma translatedSegments_map path :
  translatedSegments get prefix path
  = translateSegment_spec get prefix <$> Js.split slash path.
Proof.
  unfold translatedSegments, forkJoin, routeObservables.
  rewrite sentinel_loop_zip by (by rewrite !length_fmap).
  generalize (Js.split slash path) as ps.
  induction ps as [|p ps IH]; [done|].
  cbn [fmap list_fmap zip_with]. rewrite <- IH. f_equal.
  apply fallback_segment.
Qed.

End TranslateRouteFacts.

Section ForkJoinFacts.

Variable get : string -> string.
Variable prefix : string.

Lemma answer_length obs slots i :
  length (answer get obs slots i) = length slots.
Proof.
  unfold answer. destruct (obs !! i) as [[v|key]|]; try done.
  by rewrite length_insert.
Qed.

Lemma answer_lookup_ne obs slots i j :
  i ≠ j → answer get obs slots i !! j = slots !! j.
Proof.
  intros Hne. unfold answer. destruct (obs !! i) as [[v|key]|]; try done.
  by rewrite list_lookup_insert_ne.
Qed.

(** A slot filled at subscription keeps its value; a pending slot holds
    the answer as soon as the schedule has named it. *)
Lemma answered_slot obs sched : ∀ slots i,
  length slots = length obs →
  foldl (answer get obs) slots sched !! i
  = match obs !! i with
    | Some (ObsGet key) =>
        if decide (i ∈ sched) then Some (Some (get key)) else slots !! i
    | _ => slots !! i
    end.
Proof.
  induction sched as [|a sched IH]; intros slots i Hlen.
  - simpl. by destruct (obs !! i) as [[v|key]|].
  - simpl. rewrite IH by (by rewrite answer_length).
    destruct (obs !! i) as [[v|key]|] eqn:Hobs.
    + destruct (decide (a = i)) as [->|Hne].
      * unfold answer. by rewrite Hobs.
      * by apply answer_lookup_ne.
    + destruct (decide (a = i)) as [->|Hne].
      * rewrite (decide_True (P := i ∈ i :: sched)) by left.
        case_decide; [done|].
        unfold answer. rewrite Hobs.
        apply list_lookup_insert_eq.
        rewrite Hlen. by eapply lookup_lt_Some.
      * rewrite answer_lookup_ne by done.
        destruct (decide (i ∈ sched)) as [Hin|Hin].
        -- by rewrite decide_True by (by right).
        -- rewrite decide_False; [done|].
           intros [?|?]%elem_of_cons; congruence.
    + destruct (decide (a = i)) as [->|Hne].
      * unfold answer. by rewrite Hobs.
      * by apply answer_lookup_ne.
Qed.

(** [forkJoin] emits the values in the order of the sources, whichever
    the order of the answers. *)
Lemma forkJoin_sched_complete obs sched :
  (∀ i key, obs !! i = Some (ObsGet key) → i ∈ sched) →
  forkJoin_sched get obs sched = Some (forkJoin get obs).
Proof.
  intros Hall. unfold forkJoin_sched, forkJoin.
  assert (Hslots : foldl (answer get obs) (subscribeAll obs) sched
                   = Some <$> (emitted get <$> obs)).
  { apply list_eq. intros i.
    rewrite answered_slot by (unfold subscribeAll; by rewrite length_fmap).
    rewrite !list_lookup_fmap. unfold subscribeAll.
    rewrite list_lookup_fmap.
    destruct (obs !! i) as [[v|key]|] eqn:Hobs; simpl; try done.
    by rewrite decide_True by eauto. }
  rewrite Hslots. apply mapM_fmap_Some. done.
Qed.

End ForkJoinFacts.

(** C3: [translateRoute] splits the path on ['/'] and translates each
    component on its own: the result is the join of the per-component
    results, where an empty component passes through unchanged, and a
    non-empty component [s] is looked up under [prefix + s] and falls back
    to [s] when the lookup returns the key itself. An empty component is
    resolved when subscribed to, without the provider; a non-empty one is a
    lookup of [prefix + s]. *)
Theorem translateRoute_per_component (get : string -> string)
    (prefix path : string) :
  translateRoute get prefix path
  = Js.join "/"
      ((fun s => if decide (s = "") then s
                 else if decide (get (prefix +:+ s) = prefix +:+ s) then s
                      else get (prefix +:+ s))
         <$> Js.split slash path)
  ∧ (∀ i s, Js.split slash path !! i = Some s →
       (s = "" →
          routeObservables prefix (Js.split slash path) !! i = Some (ObsOf "")
          ∧ subscribeAll (routeObservables prefix (Js.split slash path)) !! i
            = Some (Some ""))
       ∧ (s ≠ "" →
            routeObservables prefix (Js.split slash path) !! i
            = Some (ObsGet (prefix +:+ s)))).
Proof.
  split.
  - unfold translateRoute. by rewrite translatedSegments_map.
  - intros i s Hs. unfold subscribeAll, routeObservables.
    rewrite !list_lookup_fmap, Hs. simpl. split.
    + by intros ->.
    + intros Hne. unfold segmentObservable.
      destruct s; [done | done].
Qed.

(** C4: whatever the order in which the provider answers the lookups of
    the components, once each pending lookup has been answered the
    observable of [translateRoute] emits the per-component results joined
    with ['/'] in the order of the components. *)
Theorem translateRoute_order_stable (get : string -> string)
    (prefix path : string) (sched : list nat) :
  (∀ i key, routeObservables prefix (Js.split slash path) !! i
            = Some (ObsGet key) → i ∈ sched) →
  translateRoute_sched get prefix path sched
  = Some (Js.join "/"
            (translateSegment_spec get prefix <$> Js.split slash path)).
Proof.
  intros Hall. unfold translateRoute_sched.
  rewrite forkJoin_sched_complete by done. simpl. f_equal. f_equal.
  apply translatedSegments_map.
Qed.

Lemma translateRoute_order_stable_witness :
  translateRoute_sched
    (table_get [("ROUTES.a", "X"); ("ROUTES.b", "Y"); ("ROUTES.c", "Z")])
    "ROUTES." "a/b/c" [2; 0; 1]
  = Some "X/Y/Z".
Proof.
  rewrite (translateRoute_order_stable _ "ROUTES." "a/b/c" [2; 0; 1]).
  - reflexivity.
  - intros i key H.
    destruct i as [|[|[|i]]]; [repeat constructor ..|].
    vm_compute in H. discriminate H.
Defined.

(** The path ["a/b/c"] with [a -> X], [b -> Y], [c -> Z]: every order of
    the three answers gives ["X/Y/Z"]. *)
Example translateRoute_abc_any_order :
  Forall
    (fun sched =>
       translateRoute_sched
         (table_get [("ROUTES.a", "X"); ("ROUTES.b", "Y"); ("ROUTES.c", "Z")])
         "ROUTES." "a/b/c" sched
       = Some "X/Y/Z")
    [[0; 1; 2]; [0; 2; 1]; [1; 0; 2]; [1; 2; 0]; [2; 0; 1]; [2; 1; 0]].
Proof. repeat constructor. Qed.

(** While a lookup is pending nothing is emitted. *)
Example translateRoute_abc_pending :
  translateRoute_sched
    (table_get [("ROUTES.a", "X"); ("ROUTES.b", "Y"); ("ROUTES.c", "Z")])
    "ROUTES." "a/b/c" [2; 0]
  = None.
Proof. reflexivity. Qed.

Example translateRoute_about :
  translateRoute (table_get [("ROUTES.about", "a-propos")]) "ROUTES."
    "/about/us"
  = "/a-propos/us".
Proof. reflexivity. Qed.

(** C9, as stated, fails: a component that begins with [':'] is looked up
    under [prefix + component] like any other, and a provider with an entry
    for that key replaces it. *)
Lemma placeholder_is_looked_up :
  translateRoute (table_get [("ROUTES.:id", "ident")]) "ROUTES." "user/:id"
  = "user/ident"
  ∧ routeObservables "ROUTES." (Js.split slash "user/:id") !! 1
    = Some (ObsGet "ROUTES.:id")
  ∧ ¬ (∀ (get : string -> string) (prefix path : string) (i : nat)
         (s : string),
         Js.split slash path !! i = Some s →
         is_placeholder s = true →
         translatedSegments get prefix path !! i = Some s).
Proof.
  split; [reflexivity|]. split; [reflexivity|].
  intros H.
  specialize (H (table_get [("ROUTES.:id", "ident")]) "ROUTES." "user/:id"
                1 ":id" eq_refl eq_refl).
  vm_compute in H. discriminate H.
Qed.

(** C9, amended: a component [s] that begins with [':'] is looked up under
    [prefix + s], and the translation leaves it unchanged exactly when the
    provider returns the key [prefix + s] (no translation registered) or
    [s] itself. *)
Theorem placeholder_unchanged_iff_miss (get : string -> string)
    (prefix path : string) (i : nat) (s : string) :
  Js.split slash path !! i = Some s →
  is_placeholder s = true →
  routeObservables prefix (Js.split slash path) !! i
  = Some (ObsGet (prefix +:+ s))
  ∧ (translatedSegments get prefix path !! i = Some s
     ↔ get (prefix +:+ s) = prefix +:+ s ∨ get (prefix +:+ s) = s).
Proof.
  intros Hs Hp. split.
  - unfold routeObservables. rewrite list_lookup_fmap, Hs.
    destruct s; [discriminate Hp | done].
  - rewrite translatedSegments_map, list_lookup_fmap, Hs. simpl.
    unfold translateSegment_spec.
    rewrite decide_False by (intros ->; discriminate Hp).
    case_decide as Hk.
    + split; [by left | done].
    + split.
      * intros [= Heq]. by right.
      * intros [?|Heq]; [done | by rewrite Heq].
Qed.

Lemma placeholder_unchanged_iff_miss_witness :
  routeObservables "ROUTES." (Js.split slash "user/:id") !! 1
  = Some (ObsGet ("ROUTES." +:+ ":id"))
  ∧ (translatedSegments (table_get [("ROUTES.user", "utilisateur")]) "ROUTES."
       "user/:id" !! 1 = Some ":id"
     ↔ table_get [("ROUTES.user", "utilisateur")] ("ROUTES." +:+ ":id")
       = "ROUTES." +:+ ":id"
       ∨ table_get [("ROUTES.user", "utilisateur")] ("ROUTES." +:+ ":id")
         = ":id").
Proof.
  apply (placeholder_unchanged_iff_miss
           (table_get [("ROUTES.user", "utilisateur")]) "ROUTES." "user/:id"
           1 ":id"); reflexivity.
Defined.

(** ** Route trees *)

(** Induction on a route tree: the children of a node satisfy the
    property before the node does. *)
Lemma Route_forall_ind (P : Route → Prop) :
  (∀ p rd pm, P (mkRoute p rd pm None)) →
  (∀ p rd pm cs, Forall P cs → P (mkRoute p rd pm (Some cs))) →
  ∀ r, P r.
Proof.
  intros Hleaf Hnode.
  fix IH 1. intros [p rd pm [cs|]]; [|apply Hleaf].
  apply Hnode. induction cs as [|c cs IHcs]; constructor; [apply IH | apply IHcs].
Qed.

Lemma json_clone_route_id r : json_clone_route r = r.
Proof.
  induction r as [p rd pm|p rd pm cs IH] using Route_forall_ind; [done|].
  simpl. do 2 f_equal.
  induction IH as [|c cs Hc _ IHcs]; [done|].
  cbn [fmap list_fmap]. by rewrite Hc, IHcs.
Qed.

Lemma json_clone_id routes : json_clone routes = routes.
Proof.
  unfold json_clone. induction routes as [|r rs IH]; [done|].
  cbn [fmap list_fmap]. by rewrite json_clone_route_id, IH.
Qed.

Section ForEachFacts.

Context {A : Type}.

Lemma forEach_from_length (f : nat → A → A * bool) l : ∀ k,
  length (forEach_from f k l).1 = length l.
Proof.
  induction l as [|x l IH]; intros k; [done|]. simpl.
  destruct (f k x) as [x' [|]]; [|done].
  specialize (IH (S k)). destruct (forEach_from f (S k) l) as [l'' ok'].
  simpl in *. by rewrite IH.
Qed.

(** A [forEach] that returns has applied the callback at every index. *)
Lemma forEach_from_lookup (f : nat → A → A * bool) l : ∀ k l' i,
  forEach_from f k l = (l', true) →
  l' !! i = (fun x => (f (k + i) x).1) <$> l !! i.
Proof.
  induction l as [|x l IH]; intros k l' i Hrun; simpl in Hrun.
  - by injection Hrun as <-.
  - destruct (f k x) as [x' [|]] eqn:Hx; [|done].
    destruct (forEach_from f (S k) l) as [l'' ok'] eqn:Hl.
    injection Hrun as <- ->.
    destruct i as [|i]; simpl.
    + by rewrite Nat.add_0_r, Hx.
    + rewrite (IH (S k) l'' i Hl). by rewrite Nat.add_succ_r.
Qed.

Lemma forEach_from_ok (f : nat → A → A * bool) l : ∀ k,
  (∀ i x, l !! i = Some x → (f (k + i) x).2 = true) →
  (forEach_from f k l).2 = true.
Proof.
  induction l as [|x l IH]; intros k Hall; [done|]. simpl.
  pose proof (Hall 0 x eq_refl) as Hx. rewrite Nat.add_0_r in Hx.
  destruct (f k x) as [x' ok]. simpl in Hx. subst ok.
  specialize (IH (S k)).
  destruct (forEach_from f (S k) l) as [l'' ok']. simpl in *.
  apply IH. intros i y Hy.
  replace (S (k + i)) with (k + S i) by lia. by apply (Hall (S i)).
Qed.

(** Running a [forEach] again on its own result changes nothing when the
    callback is idempotent on every element. *)
Lemma forEach_from_idempotent (f : nat → A → A * bool) l : ∀ k l',
  Forall (fun x => ∀ i y, f i x = (y, true) → f i y = (y, true)) l →
  forEach_from f k l = (l', true) →
  forEach_from f k l' = (l', true).
Proof.
  induction l as [|x l IH]; intros k l' Hall Hrun; simpl in Hrun.
  - by injection Hrun as <-.
  - apply Forall_cons in Hall as [Hx Hl].
    destruct (f k x) as [x' [|]] eqn:Hfx; [|done].
    destruct (forEach_from f (S k) l) as [l'' ok'] eqn:Hfl.
    injection Hrun as <- ->. simpl.
    rewrite (Hx k x' Hfx). by rewrite (IH (S k) l'' Hl Hfl).
Qed.

End ForEachFacts.

Section RouteTreeFacts.

Variable get : string -> string.
Variable prefix : string.

(** The new value of a translated field, in one expression. *)
Lemma translated_field_again (original : option Route)
    (property : Route → option string) (v v' : option string) :
  (if Js.otruthy v
   then Some <$> _getTranslatePromise get prefix original property
   else Some v) = Some v' →
  (if Js.otruthy v'
   then Some <$> _getTranslatePromise get prefix original property
   else Some v') = Some v'.
Proof.
  destruct (Js.otruthy v) eqn:Hv.
  - intros Hrun. destruct (Js.otruthy v'); [done|].
    by destruct (_getTranslatePromise _ _ _ _).
  - intros [= <-]. by rewrite Hv.
Qed.

Lemma translateNode_idempotent r : ∀ original r1,
  translateNode get prefix original r = (r1, true) →
  translateNode get prefix original r1 = (r1, true).
Proof.
  induction r as [p rd pm|p rd pm cs IH] using Route_forall_ind;
    intros original r1 Hrun; simpl in Hrun.
  - destruct (if Js.otruthy p then _ else _) as [p'|] eqn:Hp; [|done].
    destruct (if Js.otruthy rd then _ else _) as [rd'|] eqn:Hrd; [|done].
    injection Hrun as <-. simpl.
    by rewrite (translated_field_again _ _ _ _ Hp),
               (translated_field_again _ _ _ _ Hrd).
  - destruct (if Js.otruthy p then _ else _) as [p'|] eqn:Hp; [|done].
    destruct (if Js.otruthy rd then _ else _) as [rd'|] eqn:Hrd; [|done].
    destruct original as [o|]; [|done].
    destruct (forEach_from _ 0 cs) as [cs' ok] eqn:Hcs.
    injection Hrun as <- ->. simpl.
    rewrite (translated_field_again _ _ _ _ Hp),
            (translated_field_again _ _ _ _ Hrd).
    rewrite (forEach_from_idempotent _ cs 0 cs'); [done| |done].
    eapply Forall_impl; [exact IH|]. simpl.
    intros c Hc i y Hy. destruct (children o) as [os|]; [|done].
    by apply Hc.
Qed.

Lemma translateRouteTree_idempotent routes originals routes1 :
  _translateRouteTree get prefix routes originals = (routes1, true) →
  _translateRouteTree get prefix routes1 originals = (routes1, true).
Proof.
  unfold _translateRouteTree. intros Hrun.
  apply (forEach_from_idempotent _ routes 0 routes1); [|done].
  apply Forall_forall. intros r _ i y Hy.
  destruct originals as [os|]; [|done].
  by apply (translateNode_idempotent r).
Qed.

End RouteTreeFacts.

Section ForEachElements.

Context {A : Type}.

(** A [forEach] that returns has run the callback, without a throw, on
    every element, and holds its results index by index. *)
Lemma forEach_from_elem (f : nat → A → A * bool) l : ∀ k l' i x,
  forEach_from f k l = (l', true) →
  l !! i = Some x →
  ∃ y, f (k + i) x = (y, true) ∧ l' !! i = Some y.
Proof.
  induction l as [|x0 l IH]; intros k l' i x Hrun Hx; [done|].
  simpl in Hrun.
  destruct (f k x0) as [x' [|]] eqn:Hfx; [|done].
  destruct (forEach_from f (S k) l) as [l'' ok'] eqn:Hfl.
  injection Hrun as <- ->.
  destruct i as [|i]; simpl in *.
  - injection Hx as <-. exists x'. by rewrite Nat.add_0_r.
  - destruct (IH (S k) l'' i x Hfl Hx) as (y & Hy & Hl).
    exists y. split; [|done]. by replace (k + S i) with (S k + i) by lia.
Qed.

End ForEachElements.

Section TranslatedFields.

Variable get : string -> string.
Variable prefix : string.

(** What one returning pass writes into a node: each truthy field gets
    the translation of the same field of the original node; the children
    are translated against the children of the original node. *)
Lemma translateNode_fields original r r1 :
  translateNode get prefix original r = (r1, true) →
  path r1 = (if Js.otruthy (path r)
             then translateRoute get prefix <$> (original ≫= path)
             else path r)
  ∧ redirectTo r1 = (if Js.otruthy (redirectTo r)
                     then translateRoute get prefix
                            <$> (original ≫= redirectTo)
                     else redirectTo r)
  ∧ pathMatch r1 = pathMatch r
  ∧ match children r with
    | None => children r1 = None
    | Some cs =>
        ∃ o cs1, original = Some o ∧ children r1 = Some cs1
                 ∧ _translateRouteTree get prefix cs (children o)
                   = (cs1, true)
    end.
Proof.
  destruct r as [p rd pm ch]. simpl.
  unfold _getTranslatePromise.
  destruct (Js.otruthy p) eqn:Hp; destruct (Js.otruthy rd) eqn:Hrd;
    destruct (original ≫= path) as [sp|] eqn:Hop;
    destruct (original ≫= redirectTo) as [srd|] eqn:Hord;
    simpl; try done;
    (destruct ch as [cs|];
     [ destruct original as [o|]; [|done];
       destruct (forEach_from _ 0 cs) as [cs1 ok] eqn:Hcs;
       intros [= <- ->]; simpl; repeat split; exists o, cs1; repeat split;
       exact Hcs
     | intros [= <-]; simpl; by repeat split ]).
Qed.

Lemma translated_node_at addr : ∀ routes originals routes1 r o r1,
  _translateRouteTree get prefix routes (Some originals) = (routes1, true) →
  route_at routes addr = Some r →
  route_at originals addr = Some o →
  route_at routes1 addr = Some r1 →
  path r1 = (if Js.otruthy (path r)
             then translateRoute get prefix <$> path o else path r)
  ∧ redirectTo r1 = (if Js.otruthy (redirectTo r)
                     then translateRoute get prefix <$> redirectTo o
                     else redirectTo r).
Proof.
  induction addr as [|i addr IH]; intros routes originals routes1 r o r1
    Hrun Hr Ho Hr1; [done|].
  simpl in Hr, Ho, Hr1.
  destruct (routes !! i) as [ri|] eqn:Hri; [|done].
  destruct (originals !! i) as [oi|] eqn:Hoi; [|done].
  destruct (routes1 !! i) as [ri1|] eqn:Hri1; [|done].
  simpl in Hr, Ho, Hr1.
  destruct (forEach_from_elem _ _ _ _ _ _ Hrun Hri) as (y & Hy & Hy1).
  simpl in Hy. rewrite Hoi in Hy. rewrite Hri1 in Hy1.
  injection Hy1 as <-.
  destruct (translateNode_fields _ _ _ Hy) as (Hp & Hrd & _ & Hch).
  destruct addr as [|j addr].
  - injection Hr as <-. injection Ho as <-. injection Hr1 as <-.
    by split.
  - destruct (children ri) as [cs|] eqn:Hcs; [|done].
    destruct Hch as (o' & cs1 & [= <-] & Hcs1 & Hsub).
    rewrite Hcs1 in Hr1. simpl in Hr, Hr1.
    destruct (children oi) as [os|] eqn:Hos; [|done]. simpl in Ho.
    by apply (IH cs os cs1).
Qed.

(** Against a copy of itself a tree is translated without a throw. *)
Lemma translateNode_self_ok r :
  (translateNode get prefix (Some r) r).2 = true.
Proof.
  induction r as [p rd pm|p rd pm cs IH] using Route_forall_ind; simpl;
    unfold _getTranslatePromise; simpl.
  - destruct p as [[|c p]|], rd as [[|c' rd]|]; done.
  - assert (Hcs : (forEach_from
                     (fun index c => translateNode get prefix (cs !! index) c)
                     0 cs).2 = true).
    { apply forEach_from_ok. intros i x Hx. simpl. rewrite Hx.
      rewrite Forall_forall in IH. apply IH.
      by eapply list_elem_of_lookup_2. }
    destruct (forEach_from _ 0 cs) as [cs' ok]. simpl in Hcs. subst ok.
    destruct p as [[|c p]|], rd as [[|c' rd]|]; done.
Qed.

Lemma translateRouteTree_self_ok routes :
  (_translateRouteTree get prefix routes (Some routes)).2 = true.
Proof.
  unfold _translateRouteTree. apply forEach_from_ok.
  intros i x Hx. simpl. rewrite Hx. apply translateNode_self_ok.
Qed.

End TranslatedFields.

(** ** The parser *)

Lemma indexOf_member (l : list string) (x : string) :
  Js.indexOf l x ≠ (-1)%Z ↔ x ∈ l.
Proof.
  induction l as [|y l IH]; simpl.
  - split; [done | by intros ?%elem_of_nil].
  - case_decide as Hy.
    + subst y. split; [left | done].
    + destruct (Z.eqb_spec (Js.indexOf l x) (-1)) as [Heq|Hne].
      * split; [done|]. intros [?|Hin]%elem_of_cons; [done|].
        by apply IH in Hin.
      * assert (Hge : ∀ l', (-1 <= Js.indexOf l' x)%Z).
        { clear. induction l' as [|z l' IH']; simpl; [lia|].
          case_decide; [lia|].
          destruct (Z.eqb_spec (Js.indexOf l' x) (-1)); lia. }
        specialize (Hge l). split; [|lia].
        intros _. right. by apply IH.
Qed.

Lemma in_locales_member st v : in_locales st v = true ↔ v ∈ locales st.
Proof.
  unfold in_locales. rewrite negb_true_iff, Z.eqb_neq. apply indexOf_member.
Qed.

Lemma returnIfInLocales_member value st l :
  _returnIfInLocales value st = Some l → l ∈ locales st ∧ l ≠ "".
Proof.
  unfold _returnIfInLocales. destruct value as [v|]; [|done].
  destruct (Js.truthy v) eqn:Hv; [|done]. simpl.
  destruct (in_locales st v) eqn:Hin; [|done].
  intros [= <-]. split; [by apply in_locales_member|].
  by intros ->.
Qed.

Lemma getLocationLang_member url st l :
  getLocationLang url st = Some l → l ∈ locales st.
Proof.
  unfold getLocationLang, slice_in_locales.
  set (pathSlices := Js.split slash _).
  destruct (pathSlices !! 1) as [s1|] eqn:H1;
    destruct (pathSlices !! 0) as [s0|] eqn:H0;
    repeat (case_match; simpl in *; try done);
    intros [= <-]; apply in_locales_member;
    match goal with H : _ && _ = true |- _ => by apply andb_true_iff in H as [_ ?] end.
Qed.

Section ParserFacts.

Variable provider : TranslateService -> string -> string.

Lemma translateRoutes_fields language st :
  let st' := (translateRoutes provider language st).1 in
  currentLang st' = language
  ∧ locales st' = locales st
  ∧ prefix st' = prefix st
  ∧ originalRouteNames st' = originalRouteNames st
  ∧ translate st'
    = mkTranslateService language (ts_defaultLang (translate st))
  ∧ window_defined st' = window_defined st
  ∧ trace st'
    = trace st ++ [TranslateUse language; SetCurrentLang language]
        ++ (if window_defined st then [StorageSetItem (js_string language)]
            else []).
Proof.
  unfold translateRoutes, set_cachedLang. simpl.
  destruct (window_defined st) eqn:Hw; simpl;
    destruct (routes st) as [live|]; simpl;
    try destruct (live !! 1) as [container|]; simpl;
    try destruct (children container) as [cs|]; simpl;
    try destruct (_translateRouteTree _ _ _ _) as [cs' ok]; simpl;
    rewrite ?Hw, <- ?app_assoc; done.
Qed.

End ParserFacts.

Section InitialLocale.

Variable provider : TranslateService -> string -> string.

Lemma init_first_call new_routes st :
  routes st = None → locales st ≠ [] →
  init provider new_routes st
  = translateRoutes provider (selectedLanguage st)
      (set_routes
         (Some [mkRoute (Some "") (defaultLanguage st) (Some "full") None;
                mkRoute None None None (Some new_routes)])
         (translate_setDefaultLang (defaultLanguage st)
            (set_originalRouteNames (Some (json_clone new_routes))
               (set_routes (Some new_routes) st)))).
Proof.
  intros Hr Hl. unfold init. rewrite Hr. simpl.
  destruct (locales st) as [|l0 ls] eqn:Hls; [done|]. done.
Qed.

Lemma init_currentLang new_routes st :
  routes st = None → locales st ≠ [] →
  currentLang (init provider new_routes st).1 = selectedLanguage st.
Proof.
  intros Hr Hl. rewrite init_first_call by done.
  apply translateRoutes_fields.
Qed.

Lemma getLocationLang_found st l :
  getLocationLang None st = Some l →
  url_locale (Js.split slash (location_pathname st)) (locales st) l.
Proof.
  intros Hloc. split; [by eapply getLocationLang_member|].
  revert Hloc. unfold getLocationLang.
  repeat case_match; try done; intros <-; auto.
Qed.

Lemma getLocationLang_none st :
  getLocationLang None st = None →
  ¬ ∃ l, url_locale (Js.split slash (location_pathname st)) (locales st) l.
Proof.
  unfold getLocationLang, slice_in_locales.
  set (pathSlices := Js.split slash _).
  intros Hloc (l & Hin%in_locales_member & [H0|H1]).
  - rewrite H0, Hin in Hloc.
    assert (Hlen : (0 <? length pathSlices) = true).
    { apply Nat.ltb_lt. by eapply lookup_lt_Some. }
    rewrite Hlen in Hloc. simpl in Hloc.
    destruct (pathSlices !! 1) as [s1|]; [|by rewrite andb_false_r in Hloc].
    by destruct ((1 <? length pathSlices) && _).
  - rewrite H1, Hin in Hloc.
    assert (Hlen : (1 <? length pathSlices) = true).
    { apply Nat.ltb_lt. by eapply lookup_lt_Some. }
    by rewrite Hlen in Hloc.
Qed.

Lemma truthy_nonempty (s : string) : Js.truthy s = true ↔ s ≠ "".
Proof. destruct s; simpl; split; congruence. Qed.

Lemma returnIfInLocales_valid value st :
  "" ∉ locales st →
  _returnIfInLocales value st
  = match value with
    | Some v => if bool_decide (v ∈ locales st) then Some v else None
    | None => None
    end.
Proof.
  intros Hne. unfold _returnIfInLocales. destruct value as [v|]; [|done].
  destruct (in_locales st v) eqn:Hin.
  - apply in_locales_member in Hin.
    rewrite bool_decide_eq_true_2 by done.
    assert (Js.truthy v = true) as ->; [|done].
    apply truthy_nonempty. by intros ->.
  - rewrite andb_false_r. rewrite bool_decide_eq_false_2; [done|].
    intros Hin'%in_locales_member. congruence.
Qed.

End InitialLocale.

(** C5, as stated, fails for a locale set that holds the empty string: the
    empty first component of ["/about"] is then a member of the set found
    in the url, yet the resolved locale is the first element of the set,
    which is not in the url. *)
Lemma initial_locale_empty_member :
  ¬ (∀ (provider : TranslateService -> string -> string)
       (new_routes : Routes) (st : Parser),
       routes st = None → locales st ≠ [] →
       first_match_precedence
         (currentLang (init provider new_routes st).1)
         (location_pathname st) (stored_locale st) (browserLang st)
         (locales st)).
Proof.
  intros H.
  specialize (H (fun _ key => key) []
                (new_parser ["en"; ""] "ROUTES." false None None "/about")
                eq_refl).
  destruct H as [H _]; [done|].
  destruct H as (l & Hl & _ & Hurl).
  - exists "". split; [by right; left | by left].
  - vm_compute in Hl. injection Hl as <-.
    vm_compute in Hurl. by destruct Hurl.
Qed.

(** C5, amended: for a locale set without the empty string, the initial
    locale follows the first-match precedence: a member of the set found in
    the first or second component of the url path; else the cached locale
    if non-empty and a member; else the client locale if a member; else
    the first element of the set. *)
Theorem initial_locale_precedence
    (provider : TranslateService -> string -> string)
    (new_routes : Routes) (st : Parser) :
  routes st = None → locales st ≠ [] → "" ∉ locales st →
  first_match_precedence
    (currentLang (init provider new_routes st).1)
    (location_pathname st) (stored_locale st) (browserLang st) (locales st).
Proof.
  intros Hr Hl Hne. rewrite init_currentLang by done.
  unfold first_match_precedence, selectedLanguage, defaultLanguage.
  destruct (getLocationLang None st) as [l|] eqn:Hloc.
  - pose proof (getLocationLang_found _ _ Hloc) as Hurl.
    assert (Js.otruthy (Some l) = true) as Ht.
    { apply truthy_nonempty. intros ->. by destruct Hurl. }
    unfold Js.or_else at 1. rewrite Ht. split; [by eauto|].
    intros Hno. destruct Hno. by exists l.
  - pose proof (getLocationLang_none _ Hloc) as Hno.
    unfold Js.or_else at 1. simpl. split; [done|]. intros _.
    unfold _cachedLang, _getBrowserLang, stored_locale.
    rewrite !returnIfInLocales_valid by done.
    assert (Hpick : ∀ v, v ∈ locales st → Js.otruthy (Some v) = true).
    { intros v Hv. apply truthy_nonempty. by intros ->. }
    split.
    + intros c (Hc & _ & Hin).
      destruct (window_defined st); [|done]. rewrite Hc.
      rewrite bool_decide_eq_true_2 by done.
      unfold Js.or_else. by rewrite Hpick.
    + intros Hnc.
      assert (Hcached :
                (if window_defined st
                 then match localStorage st with
                      | Some v =>
                          if bool_decide (v ∈ locales st) then Some v else None
                      | None => None
                      end
                 else None) = None).
      { unfold valid_cached in Hnc.
        destruct (window_defined st); [|done].
        destruct (localStorage st) as [v|]; [|done].
        case_bool_decide as Hv; [|done].
        destruct Hnc. exists v. repeat split; [|done]. by intros ->. }
      rewrite Hcached. unfold Js.or_else at 1. simpl. split.
      * intros b [Hb Hin]. rewrite Hb.
        rewrite bool_decide_eq_true_2 by done.
        unfold Js.or_else. by rewrite Hpick.
      * intros Hnb.
        destruct (browserLang st) as [v|] eqn:Hv; [|done].
        case_bool_decide as Hin; [|done].
        destruct Hnb. by exists v.
Qed.

Lemma initial_locale_precedence_witness :
  first_match_precedence
    (currentLang
       (init (table_provider [("fr", [("ROUTES.about", "a-propos")])])
          [mkRoute (Some "about") None None None]
          (new_parser ["en"; "fr"] "ROUTES." true (Some "en") (Some "de")
             "/fr/about")).1)
    "/fr/about" (Some "en") (Some "de") ["en"; "fr"].
Proof.
  apply (initial_locale_precedence
           (table_provider [("fr", [("ROUTES.about", "a-propos")])])
           [mkRoute (Some "about") None None None]
           (new_parser ["en"; "fr"] "ROUTES." true (Some "en") (Some "de")
              "/fr/about")).
  - reflexivity.
  - discriminate.
  - apply (bool_decide_unpack _). vm_compute. reflexivity.
Defined.

Example initial_locale_from_url :
  currentLang
    (init (table_provider [("fr", [("ROUTES.about", "a-propos")])])
       [mkRoute (Some "about") None None None]
       (new_parser ["en"; "fr"] "ROUTES." true (Some "en") (Some "de")
          "/fr/about")).1
  = Some "fr".
Proof. reflexivity. Qed.

(** C6, as stated, fails: the redirect of the first root node is the
    default language handed to the translation service, which is the
    cached locale when there is a valid one, not the first element of the
    locale set. *)
Lemma first_load_redirect_not_first_locale :
  ¬ (∀ (provider : TranslateService -> string -> string)
       (new_routes : Routes) (st : Parser),
       routes st = None → locales st ≠ [] →
       ∃ container,
         routes (init provider new_routes st).1
         = Some [mkRoute (Some "") (locales st !! 0) (Some "full") None;
                 container]).
Proof.
  intros H.
  destruct (H (fun _ key => key) [mkRoute (Some "about") None None None]
              (new_parser ["en"; "fr"] "ROUTES." true (Some "fr") None "/")
              eq_refl) as [container Hc]; [done|].
  vm_compute in Hc. discriminate Hc.
Qed.

(** C6, amended: the first load with a non-empty locale set returns; the
    original tree is then a copy of the supplied routes, and the live tree
    has exactly two root nodes: at index 0 the redirect
    [{path: '', redirectTo: defaultLanguage, pathMatch: 'full'}], where
    [defaultLanguage] is the cached locale if valid, else the client
    locale if valid, else the first element of the locale set; at index 1
    a container whose path is the selected locale and whose children are
    the supplied routes, translated. *)
Theorem first_load_builds_root
    (provider : TranslateService -> string -> string)
    (new_routes : Routes) (st : Parser) :
  routes st = None → locales st ≠ [] →
  (init provider new_routes st).2 = true
  ∧ originalRouteNames (init provider new_routes st).1 = Some new_routes
  ∧ json_clone new_routes = new_routes
  ∧ routes (init provider new_routes st).1
    = Some [mkRoute (Some "") (defaultLanguage st) (Some "full") None;
            mkRoute (selectedLanguage st) None None
              (Some (_translateRouteTree
                       (provider (mkTranslateService (selectedLanguage st)
                                    (defaultLanguage st)))
                       (prefix st) new_routes (Some new_routes)).1)]
  ∧ defaultLanguage st
    = Js.or_else (_returnIfInLocales (stored_locale st) st)
        (Js.or_else (_returnIfInLocales (browserLang st) st)
           (locales st !! 0)).
Proof.
  intros Hr Hl. rewrite init_first_call by done.
  rewrite json_clone_id.
  unfold translateRoutes, set_cachedLang. simpl.
  pose proof (translateRouteTree_self_ok
                (provider (mkTranslateService (selectedLanguage st)
                             (defaultLanguage st)))
                (prefix st) new_routes) as Hok.
  assert (Hdef : defaultLanguage st
                 = Js.or_else (_returnIfInLocales (stored_locale st) st)
                     (Js.or_else (_returnIfInLocales (browserLang st) st)
                        (locales st !! 0))).
  { unfold defaultLanguage, _cachedLang, _getBrowserLang, stored_locale.
    by destruct (window_defined st). }
  destruct (window_defined st); simpl;
    destruct (_translateRouteTree _ _ new_routes _) as [cs' ok];
    simpl in *; subst ok; by repeat split.
Qed.

Lemma first_load_builds_root_witness :
  routes
    (init (table_provider [("fr", [("ROUTES.about", "a-propos")])])
       [mkRoute (Some "about") None None None]
       (new_parser ["en"; "fr"] "ROUTES." true None None "/fr/about")).1
  = Some [mkRoute (Some "") (Some "en") (Some "full") None;
          mkRoute (Some "fr") None None
            (Some [mkRoute (Some "a-propos") None None None])].
Proof.
  destruct (first_load_builds_root
              (table_provider [("fr", [("ROUTES.about", "a-propos")])])
              [mkRoute (Some "about") None None None]
              (new_parser ["en"; "fr"] "ROUTES." true None None "/fr/about"))
    as (_ & _ & _ & Hroot & _).
  - reflexivity.
  - discriminate.
  - rewrite Hroot. reflexivity.
Defined.

(** With a valid cached locale the redirect goes to the cached locale. *)
Example first_load_redirect_cached :
  routes
    (init (table_provider [("fr", [("ROUTES.about", "a-propos")])])
       [mkRoute (Some "about") None None None]
       (new_parser ["en"; "fr"] "ROUTES." true (Some "fr") None "/")).1
  = Some [mkRoute (Some "") (Some "fr") (Some "full") None;
          mkRoute (Some "fr") None None
            (Some [mkRoute (Some "a-propos") None None None])].
Proof. reflexivity. Qed.

(** ** Aligned trees *)

Lemma forallb2_Forall2 {A B : Type} (f : A → B → bool) l k :
  forallb2 f l k = true ↔ Forall2 (fun x y => f x y = true) l k.
Proof.
  revert k. induction l as [|x l IH]; intros [|y k]; simpl.
  - split; [constructor | done].
  - split; [done | inversion 1].
  - split; [done | inversion 1].
  - rewrite andb_true_iff, IH. split.
    + intros [? ?]. by constructor.
    + inversion 1; by subst.
Qed.

Lemma same_shape_refl r : same_shape r r = true.
Proof.
  induction r as [p rd pm|p rd pm cs IH] using Route_forall_ind; simpl.
  - by rewrite !Bool.eqb_reflx.
  - rewrite !Bool.eqb_reflx. simpl. apply forallb2_Forall2.
    induction IH as [|c cs Hc _ IHcs]; by constructor.
Qed.

Lemma aligned_refl routes : aligned routes routes = true.
Proof.
  apply forallb2_Forall2. induction routes as [|r rs IH]; constructor;
    [apply same_shape_refl | done].
Qed.

Section AlignedFacts.

Variable get : string -> string.
Variable prefix : string.

(** A truthy field of a live node aligned with its original is
    translated from a string, and stays present. *)
Lemma aligned_field (original : Route) (property : Route → option string)
    (v : option string) :
  Bool.eqb (defined v) (defined (property original)) = true →
  ∃ v',
    (if Js.otruthy v
     then Some <$> _getTranslatePromise get prefix (Some original) property
     else Some v) = Some v'
    ∧ Bool.eqb (defined v') (defined (property original)) = true.
Proof.
  intros Hd. unfold _getTranslatePromise. simpl.
  destruct v as [[|c v]|]; simpl in *; try (by eexists).
  destruct (property original) as [src|]; [|done]. simpl. by eexists.
Qed.

(** The callback over aligned children: it returns, and the children it
    leaves are aligned again. *)
Lemma forEach_aligned (os : Routes) (cs : Routes) : ∀ k,
  Forall (fun c => ∀ o, same_shape c o = true →
                        ∃ c', translateNode get prefix (Some o) c = (c', true)
                              ∧ same_shape c' o = true) cs →
  Forall2 (fun c o => same_shape c o = true) cs (drop k os) →
  ∃ cs',
    forEach_from (fun index c => translateNode get prefix (os !! index) c)
      k cs = (cs', true)
    ∧ Forall2 (fun c o => same_shape c o = true) cs' (drop k os).
Proof.
  induction cs as [|c cs IH]; intros k Hall Hshape.
  - exists []. split; [done|].
    destruct (drop k os); [constructor | inversion Hshape].
  - destruct (drop k os) as [|o rest] eqn:Hdrop; [inversion Hshape|].
    apply Forall2_cons in Hshape as [Hco Hrest].
    apply Forall_cons in Hall as [Hc Hcs].
    assert (Hk : os !! k = Some o).
    { rewrite <- (Nat.add_0_r k), <- lookup_drop. by rewrite Hdrop. }
    assert (Hdrop' : drop (S k) os = rest).
    { rewrite (drop_S os o k Hk) in Hdrop. by injection Hdrop. }
    destruct (Hc o Hco) as (c' & Hrun & Hshape').
    rewrite <- Hdrop' in Hrest.
    destruct (IH (S k) Hcs Hrest) as (cs' & Hruns & Hshapes).
    exists (c' :: cs'). simpl. rewrite Hk, Hrun, Hruns.
    split; [done|]. constructor; [done|]. by rewrite <- Hdrop'.
Qed.

Lemma translateNode_aligned r : ∀ o,
  same_shape r o = true →
  ∃ r', translateNode get prefix (Some o) r = (r', true)
        ∧ same_shape r' o = true.
Proof.
  induction r as [p rd pm|p rd pm cs IH] using Route_forall_ind;
    intros o Hshape; simpl in Hshape;
    apply andb_true_iff in Hshape as [Hshape Hch];
    apply andb_true_iff in Hshape as [Hp Hrd];
    destruct (aligned_field o path p Hp) as (p' & Hp' & Hdp);
    destruct (aligned_field o redirectTo rd Hrd) as (rd' & Hrd' & Hdrd);
    simpl; rewrite Hp', Hrd'.
  - destruct (children o) as [os|] eqn:Hos; [done|].
    eexists. split; [done|]. simpl. by rewrite Hdp, Hdrd, Hos.
  - destruct (children o) as [os|] eqn:Hos; [|done].
    apply forallb2_Forall2 in Hch.
    destruct (forEach_aligned os cs 0 IH Hch) as (cs' & Hrun & Hshape').
    rewrite Hrun. eexists. split; [done|]. simpl.
    rewrite Hdp, Hdrd, Hos. simpl. by apply forallb2_Forall2.
Qed.

(** Translating an aligned tree returns, and leaves an aligned tree. *)
Lemma translateRouteTree_aligned routes originals :
  aligned routes originals = true →
  ∃ routes',
    _translateRouteTree get prefix routes (Some originals) = (routes', true)
    ∧ aligned routes' originals = true.
Proof.
  intros Ha%forallb2_Forall2.
  destruct (forEach_aligned originals routes 0) as (cs' & Hrun & Hs);
    [|done|].
  - apply Forall_forall. intros c _. apply translateNode_aligned.
  - exists cs'. split; [done | by apply forallb2_Forall2].
Qed.

End AlignedFacts.

(** ** Repeated translation *)

Section Retranslation.

Variable provider : TranslateService -> string -> string.

(** The parts of a returning [translateRoutes]. *)
Lemma translateRoutes_returns language st st1 :
  translateRoutes provider language st = (st1, true) →
  ∃ live container cs cs1,
    routes st = Some live
    ∧ live !! 1 = Some container
    ∧ children container = Some cs
    ∧ _translateRouteTree
        (provider (mkTranslateService language
                     (ts_defaultLang (translate st))))
        (prefix st) cs (originalRouteNames st) = (cs1, true)
    ∧ routes st1
      = Some (<[1 := mkRoute language (redirectTo container)
                       (pathMatch container) (Some cs1)]> live)
    ∧ originalRouteNames st1 = originalRouteNames st
    ∧ prefix st1 = prefix st
    ∧ translate st1
      = mkTranslateService language (ts_defaultLang (translate st)).
Proof.
  unfold translateRoutes, set_cachedLang. simpl.
  destruct (window_defined st) eqn:Hw; simpl;
    (destruct (routes st) as [live|] eqn:Hlive; [|done]);
    (destruct (live !! 1) as [container|] eqn:Hc; [|done]);
    simpl;
    (destruct (children container) as [cs|] eqn:Hcs; [|done]);
    destruct (_translateRouteTree _ _ cs _) as [cs1 ok] eqn:Htree;
    intros [= <- ->]; exists live, container, cs, cs1; simpl;
    by repeat split.
Qed.

Lemma translateRoutes_again language st st1 :
  translateRoutes provider language st = (st1, true) →
  (translateRoutes provider language st1).2 = true
  ∧ routes (translateRoutes provider language st1).1 = routes st1.
Proof.
  intros Hrun.
  destruct (translateRoutes_returns _ _ _ Hrun)
    as (live & container & cs & cs1 & Hlive & Hc & Hcs & Htree & Hr1
        & Ho1 & Hp1 & Ht1).
  apply translateRouteTree_idempotent in Htree.
  assert (Hlt : 1 < length live) by (by eapply lookup_lt_Some).
  unfold translateRoutes, set_cachedLang. simpl.
  destruct (window_defined st1); simpl; rewrite Hr1;
    rewrite list_lookup_insert_eq by done; simpl;
    rewrite Ht1, Hp1, Ho1; simpl; rewrite Htree; simpl;
    by rewrite list_insert_insert_eq.
Qed.

End Retranslation.

(** A returning [translateRoutes]: its sources, and a second call. *)
Lemma translateRoutes_sources
    (provider : TranslateService -> string -> string)
    (language : option string) (st st1 : Parser) :
  translateRoutes provider language st = (st1, true) →
  (translateRoutes provider language st1).2 = true
  ∧ routes (translateRoutes provider language st1).1 = routes st1
  ∧ originalRouteNames st1 = originalRouteNames st
  ∧ (∀ cs os cs1 addr r o r1,
       container_children st = Some cs →
       originalRouteNames st = Some os →
       container_children st1 = Some cs1 →
       route_at cs addr = Some r →
       route_at os addr = Some o →
       route_at cs1 addr = Some r1 →
       path r1
       = (if Js.otruthy (path r)
          then translateRoute (provider (translate st1)) (prefix st)
                 <$> path o
          else path r)
       ∧ redirectTo r1
         = (if Js.otruthy (redirectTo r)
            then translateRoute (provider (translate st1)) (prefix st)
                   <$> redirectTo o
            else redirectTo r)).
Proof.
  intros Hrun.
  destruct (translateRoutes_again _ _ _ _ Hrun) as [Hok Hsame].
  destruct (translateRoutes_returns _ _ _ _ Hrun)
    as (live & container & cs & cs1 & Hlive & Hc & Hcs & Htree & Hr1
        & Ho1 & Hp1 & Ht1).
  split; [done|]. split; [done|]. split; [done|].
  intros cs0 os cs2 addr r o r1 Hcs0 Hos Hcs2 Hr Ho Hr1'.
  unfold container_children in Hcs0, Hcs2.
  rewrite Hlive in Hcs0. simpl in Hcs0. rewrite Hc in Hcs0.
  simpl in Hcs0. rewrite Hcs in Hcs0. injection Hcs0 as <-.
  rewrite Hr1 in Hcs2. simpl in Hcs2.
  rewrite list_lookup_insert_eq in Hcs2 by (by eapply lookup_lt_Some).
  simpl in Hcs2. injection Hcs2 as <-.
  rewrite Hos in Htree. rewrite Ht1.
  exact (translated_node_at _ _ addr _ _ _ _ _ _ Htree Hr Ho Hr1').
Qed.


Lemma translateRoutes_aligned
    (provider : TranslateService -> string -> string)
    (language : option string) (st : Parser) :
  aligned_parser st →
  ∃ st1, translateRoutes provider language st = (st1, true)
         ∧ aligned_parser st1.
Proof.
  intros (cs & os & Hcs & Hos & Ha). unfold container_children in Hcs.
  destruct (routes st) as [live|] eqn:Hlive; [|done]. simpl in Hcs.
  destruct (live !! 1) as [container|] eqn:Hc; [|done]. simpl in Hcs.
  destruct (translateRouteTree_aligned
              (provider (mkTranslateService language
                           (ts_defaultLang (translate st))))
              (prefix st) cs os Ha) as (cs' & Hrun & Ha').
  assert (Hlt : 1 < length live) by (by eapply lookup_lt_Some).
  unfold translateRoutes, set_cachedLang. simpl.
  destruct (window_defined st); simpl; rewrite Hlive, Hc; simpl;
    rewrite Hcs, Hos, Hrun; eexists; (split; [done|]);
    exists cs', os; unfold container_children; simpl;
    rewrite list_lookup_insert_eq by done; by repeat split.
Qed.

(** The first load leaves aligned trees. *)
Lemma init_aligned (provider : TranslateService -> string -> string)
    (new_routes : Routes) (st : Parser) :
  routes st = None → locales st ≠ [] →
  aligned_parser (init provider new_routes st).1.
Proof.
  intros Hr Hl. rewrite init_first_call by done.
  match goal with
  | |- aligned_parser (translateRoutes ?p ?l ?s).1 =>
      destruct (translateRoutes_aligned p l s) as (st1 & -> & Ha); [|done]
  end.
  exists new_routes, new_routes. repeat split.
  - simpl. by rewrite json_clone_id.
  - apply aligned_refl.
Qed.

(** C2: for a live tree aligned with the original tree and every locale,
    [translateRoutes] returns and leaves the trees aligned; each node of
    the translated array gets, in each truthy field, the translation of
    the same field of the original node at the same address, never of
    the value the live node held; the original tree is unchanged; and
    translating again to the same locale returns and leaves exactly the
    same live tree. *)
Theorem retranslation_is_stable
    (provider : TranslateService -> string -> string)
    (language : option string) (st : Parser) :
  aligned_parser st →
  (translateRoutes provider language st).2 = true
  ∧ aligned_parser (translateRoutes provider language st).1
  ∧ (translateRoutes provider language
       (translateRoutes provider language st).1).2 = true
  ∧ routes (translateRoutes provider language
              (translateRoutes provider language st).1).1
    = routes (translateRoutes provider language st).1
  ∧ originalRouteNames (translateRoutes provider language st).1
    = originalRouteNames st
  ∧ (∀ cs os cs1 addr r o r1,
       container_children st = Some cs →
       originalRouteNames st = Some os →
       container_children (translateRoutes provider language st).1
       = Some cs1 →
       route_at cs addr = Some r →
       route_at os addr = Some o →
       route_at cs1 addr = Some r1 →
       path r1
       = (if Js.otruthy (path r)
          then translateRoute
                 (provider (mkTranslateService language
                              (ts_defaultLang (translate st))))
                 (prefix st) <$> path o
          else path r)
       ∧ redirectTo r1
         = (if Js.otruthy (redirectTo r)
            then translateRoute
                   (provider (mkTranslateService language
                                (ts_defaultLang (translate st))))
                   (prefix st) <$> redirectTo o
            else redirectTo r)).
Proof.
  intros Ha.
  destruct (translateRoutes_aligned provider language st Ha)
    as (st1 & Hrun & Ha1).
  destruct (translateRoutes_sources provider language st st1 Hrun)
    as (Hok & Hsame & Horig & Hsrc).
  destruct (translateRoutes_fields provider language st)
    as (_ & _ & _ & _ & Htr & _).
  rewrite Hrun in *. simpl in *.
  repeat (split; [done|]).
  intros cs os cs1 addr r o r1 Hcs Hos Hcs1 Hr Ho Hr1.
  rewrite <- Htr. by apply (Hsrc cs os cs1 addr r o r1).
Qed.

Lemma retranslation_is_stable_witness :
  aligned_parser (scenario_loaded "/en/about")
  ∧ (translateRoutes scenario_provider (Some "fr")
       (translateRoutes scenario_provider (Some "fr")
          (scenario_loaded "/en/about")).1).2 = true
  ∧ routes
      (translateRoutes scenario_provider (Some "fr")
         (translateRoutes scenario_provider (Some "fr")
            (scenario_loaded "/en/about")).1).1
    = routes
        (translateRoutes scenario_provider (Some "fr")
           (scenario_loaded "/en/about")).1.
Proof.
  assert (Ha : aligned_parser (scenario_loaded "/en/about")).
  { exists scenario_routes, scenario_routes. by vm_compute. }
  split; [exact Ha|].
  destruct (retranslation_is_stable scenario_provider (Some "fr")
              (scenario_loaded "/en/about") Ha)
    as (_ & _ & Hok & Hsame & _).
  split; [exact Hok | exact Hsame].
Defined.

(** From [en] to [fr] and to [fr] again: the live tree under the
    container. *)
Example retranslation_scenario :
  container_children
    (translateRoutes scenario_provider (Some "fr")
       (translateRoutes scenario_provider (Some "fr")
          (scenario_loaded "/en/about")).1).1
  = Some [ mkRoute (Some "a-propos") None None None;
           mkRoute (Some "user/:id") None None
             (Some [mkRoute (Some "a-propos") None None None]) ].
Proof. reflexivity. Qed.

(** ** The active locale *)

Section ActiveLocale.

Variable provider : TranslateService -> string -> string.

Lemma or_else_cases a b : Js.or_else a b = a ∨ Js.or_else a b = b.
Proof. unfold Js.or_else. destruct (Js.otruthy a); auto. Qed.

Lemma selectedLanguage_member st l :
  selectedLanguage st = Some l → l ∈ locales st.
Proof.
  unfold selectedLanguage, defaultLanguage, _cachedLang, _getBrowserLang.
  destruct (or_else_cases (getLocationLang None st)
              (Js.or_else
                 (if window_defined st
                  then _returnIfInLocales (localStorage st) st else None)
                 (Js.or_else (_returnIfInLocales (browserLang st) st)
                    (locales st !! 0)))) as [-> | ->].
  { apply getLocationLang_member. }
  destruct (or_else_cases
              (if window_defined st
               then _returnIfInLocales (localStorage st) st else None)
              (Js.or_else (_returnIfInLocales (browserLang st) st)
                 (locales st !! 0))) as [-> | ->].
  { destruct (window_defined st); [|done].
    intros H. by apply returnIfInLocales_member in H as [? _]. }
  destruct (or_else_cases (_returnIfInLocales (browserLang st) st)
              (locales st !! 0)) as [-> | ->].
  { intros H. by apply returnIfInLocales_member in H as [? _]. }
  apply list_elem_of_lookup_2.
Qed.

Lemma translateRoutes_active_locale language st :
  match language with Some l => l ∈ locales st | None => True end →
  active_locale_ok (translateRoutes provider language st).1.
Proof.
  intros Hl. unfold active_locale_ok.
  destruct (translateRoutes_fields provider language st)
    as (-> & -> & _). done.
Qed.

Lemma init_active_locale new_routes st :
  active_locale_ok st → active_locale_ok (init provider new_routes st).1.
Proof.
  intros Hok.
  destruct (routes st) as [live|] eqn:Hr.
  - unfold init. rewrite Hr.
    destruct (originalRouteNames st) as [originals|]; [|done].
    destruct (live !! 1) as [container|]; [|done].
    destruct (children container) as [cs|]; [|done].
    by apply translateRoutes_active_locale.
  - destruct (decide (locales st = [])) as [Hl|Hl].
    + unfold init. rewrite Hr. simpl. by rewrite Hl.
    + unfold active_locale_ok.
      rewrite init_currentLang by done.
      rewrite init_first_call by done.
      destruct (translateRoutes_fields provider (selectedLanguage st)
                  (set_routes
                     (Some [mkRoute (Some "") (defaultLanguage st)
                              (Some "full") None;
                            mkRoute None None None (Some new_routes)])
                     (translate_setDefaultLang (defaultLanguage st)
                        (set_originalRouteNames
                           (Some (json_clone new_routes))
                           (set_routes (Some new_routes) st)))))
        as (_ & -> & _). simpl.
      destruct (selectedLanguage st) as [l|] eqn:Hsel; [|done].
      by apply selectedLanguage_member.
Qed.

Lemma routeChanged_active_locale event st :
  active_locale_ok st →
  active_locale_ok (Legacy._routeChanged provider event st).1.
Proof.
  intros Hok. unfold Legacy._routeChanged.
  destruct (getLocationLang (ev_url event) st) as [lang|] eqn:Hloc; [|done].
  destruct (_ && _); [|done].
  pose proof (translateRoutes_active_locale (Some lang) st
                (getLocationLang_member _ _ _ Hloc)) as Hnew.
  by destruct (translateRoutes provider (Some lang) st) as [st' [|]].
Qed.

Lemma legacy_changeLanguage_active_locale snapshot lang st :
  active_locale_ok st → lang ∈ locales st →
  active_locale_ok (Legacy.changeLanguage provider snapshot lang st).1.
Proof.
  intros Hok Hin. unfold Legacy.changeLanguage.
  case_decide; [done|].
  pose proof (translateRoutes_active_locale (Some lang) st Hin) as Hnew.
  by destruct (translateRoutes provider (Some lang) st) as [st' [|]].
Qed.

Lemma changeLanguage_active_locale settings defaultLang snapshot lang
    useNavigateMethod st :
  active_locale_ok st → lang ∈ locales st →
  active_locale_ok
    (Service.changeLanguage provider settings defaultLang snapshot lang
       useNavigateMethod st).1.
Proof.
  intros Hok Hin. unfold Service.changeLanguage.
  case_decide; [done|].
  pose proof (translateRoutes_active_locale (Some lang) st Hin) as Hnew.
  by destruct (translateRoutes provider (Some lang) st) as [st' [|]].
Qed.

End ActiveLocale.

(** C10, as stated, fails: [translateRoutes] and [changeLanguage] assign
    the locale they are given without checking it against the locale
    set. *)
Lemma changeLanguage_unknown_locale :
  currentLang
    (Legacy.changeLanguage scenario_provider (scenario_snapshot "fr" "a-propos")
       "xx" (scenario_loaded "/fr/about")).1 = Some "xx"
  ∧ ¬ (∀ (provider : TranslateService -> string -> string)
         (snapshot : ActivatedRouteSnapshot) (lang : string) (st : Parser),
         active_locale_ok st →
         active_locale_ok (translateRoutes provider (Some lang) st).1
         ∧ active_locale_ok
             (Legacy.changeLanguage provider snapshot lang st).1).
Proof.
  split; [reflexivity|].
  intros H.
  destruct (H scenario_provider (scenario_snapshot "fr" "a-propos") "xx"
              (scenario_loaded "/fr/about")) as [_ Hbad].
  - unfold active_locale_ok. vm_compute. by right; left.
  - unfold active_locale_ok in Hbad. vm_compute in Hbad.
    repeat (apply elem_of_cons in Hbad as [Hbad|Hbad]; [discriminate Hbad|]).
    by apply elem_of_nil in Hbad.
Qed.

(** C10, amended: from a state whose active locale is unset or a member
    of the locale set, [init] (the initial resolution and the later loads)
    and the route-change handler lead to such a state again, for every
    input; [translateRoutes] and [changeLanguage] assign their argument
    unchecked, and lead to such a state when the argument is a member of
    the locale set. *)
Theorem active_locale_preserved
    (provider : TranslateService -> string -> string)
    (settings : LocalizeRouterSettings) (defaultLang : string)
    (st : Parser) :
  active_locale_ok st →
  (∀ new_routes, active_locale_ok (init provider new_routes st).1)
  ∧ (∀ event, active_locale_ok (Legacy._routeChanged provider event st).1)
  ∧ (∀ lang, lang ∈ locales st →
       active_locale_ok (translateRoutes provider (Some lang) st).1
       ∧ (∀ snapshot,
            active_locale_ok
              (Legacy.changeLanguage provider snapshot lang st).1)
       ∧ (∀ snapshot useNavigateMethod,
            active_locale_ok
              (Service.changeLanguage provider settings defaultLang snapshot
                 lang useNavigateMethod st).1))
  ∧ (∀ language, currentLang (translateRoutes provider language st).1
                 = language).
Proof.
  intros Hok. split; [|split; [|split]].
  - intros new_routes. by apply init_active_locale.
  - intros event. by apply routeChanged_active_locale.
  - intros lang Hin. split; [|split].
    + by apply translateRoutes_active_locale.
    + intros snapshot. by apply legacy_changeLanguage_active_locale.
    + intros snapshot useNavigateMethod.
      by apply changeLanguage_active_locale.
  - intros language. apply translateRoutes_fields.
Qed.

Lemma active_locale_preserved_witness :
  active_locale_ok (scenario_loaded "/fr/about")
  ∧ active_locale_ok
      (translateRoutes scenario_provider (Some "en")
         (scenario_loaded "/fr/about")).1.
Proof.
  assert (Hok : active_locale_ok (scenario_loaded "/fr/about")).
  { unfold active_locale_ok. vm_compute. by right; left. }
  split; [exact Hok|].
  destruct (active_locale_preserved scenario_provider (mkSettings false) "en"
              (scenario_loaded "/fr/about") Hok) as (_ & _ & Hlang & _).
  destruct (Hlang "en") as [Htr _].
  - vm_compute. by left.
  - exact Htr.
Defined.

(** ** The locale change *)

Section ChangeLanguage.

Variable provider : TranslateService -> string -> string.

(** The state and trace a returning [translateRoutes] leaves. *)
Lemma translateRoutes_trace language st :
  trace (translateRoutes provider language st).1
  = trace st ++ [TranslateUse language; SetCurrentLang language]
      ++ (if window_defined st then [StorageSetItem (js_string language)]
          else [])
  ∧ currentLang (translateRoutes provider language st).1 = language
  ∧ (window_defined st = true →
     localStorage (translateRoutes provider language st).1
     = Some (js_string language)).
Proof.
  destruct (translateRoutes_fields provider language st)
    as (Hc & _ & _ & _ & _ & _ & Ht).
  split; [done|]. split; [done|].
  intros Hw. unfold translateRoutes, set_cachedLang. simpl. rewrite Hw.
  simpl. repeat case_match; done.
Qed.



(** The subscriber either navigates, as its only step, or throws and
    leaves the parser as it is. *)
Lemma changeLanguage_subscriber_runs settings defaultLang snapshot
    useNavigateMethod st st' ok :
  Service.changeLanguage_subscriber settings defaultLang snapshot
    useNavigateMethod st = (st', ok) →
  (ok = false ∧ st' = st)
  ∨ (ok = true
     ∧ ∃ live url,
         routes st = Some live
         ∧ Service.traverseRouteSnapshot live snapshot = Some url
         ∧ st' = emit ((if useNavigateMethod then Navigate else NavigateByUrl)
                         (if alwaysSetPrefix settings then url
                          else prefixPolicy (currentLang st) defaultLang url))
                   st).
Proof.
  unfold Service.changeLanguage_subscriber.
  destruct (routes st) as [live|] eqn:Hlive; simpl.
  2:{ intros [= <- <-]. by left. }
  destruct (Service.traverseRouteSnapshot live snapshot) as [url|] eqn:Hurl.
  2:{ intros [= <- <-]. by left. }
  intros [= <- <-]. right. split; [done|]. exists live, url.
  repeat split; try done. by destruct useNavigateMethod.
Qed.


End ChangeLanguage.

(** *** The url rewriting *)

Lemma indexOf_head (l : list string) (x : string) :
  l !! 0 = Some x → Js.indexOf l x = 0%Z.
Proof.
  destruct l as [|y l]; [done|]. intros [= ->]. simpl.
  by rewrite decide_True.
Qed.

Lemma indexOf_second (l : list string) (x : string) :
  l !! 0 ≠ Some x → l !! 1 = Some x → Js.indexOf l x = 1%Z.
Proof.
  destruct l as [|y [|z l]]; [done|done|]. intros Hy [= ->]. simpl.
  rewrite decide_False by (intros ->; by apply Hy). by rewrite decide_True.
Qed.

Lemma indexOf_absent (l : list string) (x : string) :
  x ∉ l → Js.indexOf l x = (-1)%Z.
Proof.
  intros Hx. destruct (decide (Js.indexOf l x = (-1)%Z)) as [|Hne]; [done|].
  by apply indexOf_member in Hne.
Qed.

(** C7: with the always-prefix setting off, the subscriber of
    [changeLanguage], run on a parser whose active locale is the new
    locale, navigates to the rewritten url, and the rewriting is: when the
    new locale is the default one and a segment equal to it is at position
    0, or at position 1 behind an empty segment, that segment is removed;
    when the new locale is not the default one and no segment is equal to
    it, it is inserted behind the leading empty segment if there is one,
    and in front otherwise. *)
Theorem prefix_policy_strip_and_inject
    (defaultLang : string) (snapshot : ActivatedRouteSnapshot)
    (lang : string) (useNavigateMethod : bool) (st st' : Parser) :
  currentLang st = Some lang →
  Service.changeLanguage_subscriber (mkSettings false) defaultLang snapshot
    useNavigateMethod st = (st', true) →
  ∃ live url,
    routes st = Some live
    ∧ Service.traverseRouteSnapshot live snapshot = Some url
    ∧ trace st'
      = trace st
          ++ [(if useNavigateMethod then Navigate else NavigateByUrl)
                (prefixPolicy (Some lang) defaultLang url)]
    ∧ (lang = defaultLang →
       (Js.split slash url !! 0 = Some lang →
        prefixPolicy (Some lang) defaultLang url
        = Js.join "/" (drop 1 (Js.split slash url)))
       ∧ (Js.split slash url !! 0 = Some "" →
          Js.split slash url !! 1 = Some lang →
          prefixPolicy (Some lang) defaultLang url
          = Js.join "/" ("" :: drop 2 (Js.split slash url))))
    ∧ (lang ≠ defaultLang → lang ∉ Js.split slash url →
       prefixPolicy (Some lang) defaultLang url
       = Js.join "/"
           (if bool_decide (Js.split slash url !! 0 = Some "")
            then "" :: lang :: drop 1 (Js.split slash url)
            else lang :: Js.split slash url)).
Proof.
  intros Hcur Hrun.
  destruct (changeLanguage_subscriber_runs _ _ _ _ _ _ _ Hrun)
    as [[Hok _]|(_ & live & url & Hlive & Hurl & ->)]; [done|].
  exists live, url. simpl. rewrite Hcur. split; [done|]. split; [done|].
  split; [done|].
  unfold prefixPolicy. set (segments := Js.split slash url).
  split.
  - intros <-. rewrite decide_True by done. split.
    + intros H0. rewrite (indexOf_head _ _ H0). simpl.
      unfold Js.slice, Js.slice_from. simpl. by rewrite ?drop_0.
    + intros H0 H1. destruct (decide (lang = "")) as [->|Hl].
      * rewrite (indexOf_head _ _ H0). simpl.
        unfold Js.slice, Js.slice_from. simpl. rewrite ?drop_0. simpl.
        destruct segments as [|s0 [|s1 ss]]; [done|done|].
        by injection H1 as ->.
      * rewrite (indexOf_second segments lang) by (done || congruence).
        simpl. rewrite bool_decide_eq_true_2 by done.
        unfold Js.slice, Js.slice_from. simpl.
        destruct segments as [|s0 [|s1 ss]]; [done|done|].
        injection H0 as ->. by rewrite ?drop_0.
  - intros Hd Hin. rewrite decide_False by congruence.
    rewrite (indexOf_absent _ _ Hin). simpl.
    case_bool_decide as H0.
    + unfold Js.slice, Js.slice_from. simpl.
      destruct segments as [|s0 ss]; [done|]. injection H0 as ->.
      simpl. by rewrite ?drop_0.
    + unfold Js.slice, Js.slice_from. simpl. by rewrite ?drop_0.
Qed.

(** At [/fr/a-propos], on the parser as the translation to the default
    [en] leaves it: the locale segment is dropped and the navigation goes
    to [/about]. *)
Lemma prefix_policy_strip_and_inject_witness :
  trace
    (Service.changeLanguage_subscriber (mkSettings false) "en"
       (scenario_snapshot "fr" "a-propos") false
       (translateRoutes scenario_provider (Some "en")
          (scenario_loaded "/fr/a-propos")).1).1
  = trace
      (translateRoutes scenario_provider (Some "en")
         (scenario_loaded "/fr/a-propos")).1
      ++ [NavigateByUrl "/about"].
Proof.
  destruct (prefix_policy_strip_and_inject "en"
              (scenario_snapshot "fr" "a-propos") "en" false
              (translateRoutes scenario_provider (Some "en")
                 (scenario_loaded "/fr/a-propos")).1
              (Service.changeLanguage_subscriber (mkSettings false) "en"
                 (scenario_snapshot "fr" "a-propos") false
                 (translateRoutes scenario_provider (Some "en")
                    (scenario_loaded "/fr/a-propos")).1).1)
    as (live & url & Hlive & Hurl & Hnav & _).
  - vm_compute. reflexivity.
  - vm_compute. reflexivity.
  - rewrite Hnav. vm_compute in Hlive. injection Hlive as <-.
    vm_compute in Hurl. injection Hurl as <-. reflexivity.
Defined.

(** From the default [en] to [fr] at [/about]: the locale is inserted
    behind the leading empty segment. *)
Example prefixPolicy_inject :
  prefixPolicy (Some "fr") "en" "/a-propos" = "/fr/a-propos"
  ∧ prefixPolicy (Some "fr") "en" "a-propos" = "fr/a-propos"
  ∧ prefixPolicy (Some "en") "en" "en/about" = "about"
  ∧ prefixPolicy (Some "en") "en" "/en/about" = "/about".
Proof. repeat split. Qed.

(** *** The order of the steps *)




(** ** Pending translations *)

(** C1 fails on the code: the promise of the recursive call on the
    children is dropped, so the returned [Promise.all] covers the nodes of
    the top array only. With the routes of the scenario, once the provider
    has answered for the two top nodes the returned promise has settled,
    while the translation of the child [about] under [user/:id] is still
    pending and the child still holds its untranslated path. *)
Theorem nested_translation_left_pending :
  let get := scenario_provider (mkTranslateService (Some "fr") (Some "en")) in
  let top := [mkTask "about" [0] PropPath; mkTask "user/:id" [1] PropPath] in
  let nested := mkTask "about" [1; 0] PropPath in
  startRouteTree scenario_routes (Some scenario_routes)
  = Some (top, top ++ [nested])
  ∧ settled top
      (run get "ROUTES." (mkPending scenario_routes (top ++ [nested])) top)
    = true
  ∧ pending
      (run get "ROUTES." (mkPending scenario_routes (top ++ [nested])) top)
    = [nested]
  ∧ live (run get "ROUTES." (mkPending scenario_routes (top ++ [nested])) top)
    = [ mkRoute (Some "a-propos") None None None;
        mkRoute (Some "user/:id") None None
          (Some [mkRoute (Some "about") None None None]) ]
  ∧ live
      (run get "ROUTES." (mkPending scenario_routes (top ++ [nested]))
         (top ++ [nested]))
    = [ mkRoute (Some "a-propos") None None None;
        mkRoute (Some "user/:id") None None
          (Some [mkRoute (Some "a-propos") None None None]) ].
Proof. vm_compute. repeat split. Qed.

(** The same, against the claim in general: a settled promise does not
    imply that nothing is pending. *)
Lemma settled_with_pending_children :
  ¬ (∀ (get : string -> string) (prefix : string) (routes : Routes)
       (originals : option Routes) (promises started sched : list Task),
       startRouteTree routes originals = Some (promises, started) →
       settled promises (run get prefix (mkPending routes started) sched)
       = true →
       pending (run get prefix (mkPending routes started) sched) = []).
Proof.
  intros H.
  specialize (H (scenario_provider (mkTranslateService (Some "fr") (Some "en")))
                "ROUTES." scenario_routes (Some scenario_routes)
                [mkTask "about" [0] PropPath; mkTask "user/:id" [1] PropPath]
                [mkTask "about" [0] PropPath; mkTask "user/:id" [1] PropPath;
                 mkTask "about" [1; 0] PropPath]
                [mkTask "about" [0] PropPath; mkTask "user/:id" [1] PropPath]
                eq_refl eq_refl).
  vm_compute in H. discriminate H.
Qed.

(** Once every pending translation has been answered, in the order they
    were started or in the reverse one, the live tree is the one the
    translator yields when the provider answers at once. *)
Example pending_run_agrees :
  let get := scenario_provider (mkTranslateService (Some "fr") (Some "en")) in
  let started :=
    [mkTask "about" [0] PropPath; mkTask "user/:id" [1] PropPath;
     mkTask "about" [1; 0] PropPath] in
  live (run get "ROUTES." (mkPending scenario_routes started) started)
  = (_translateRouteTree get "ROUTES." scenario_routes
       (Some scenario_routes)).1
  ∧ live (run get "ROUTES." (mkPending scenario_routes started)
            (reverse started))
    = (_translateRouteTree get "ROUTES." scenario_routes
         (Some scenario_routes)).1
  ∧ pending (run get "ROUTES." (mkPending scenario_routes started) started)
    = [].
Proof. vm_compute. repeat split. Qed.

Section PendingFacts.

Variable get : string -> string.
Variable prefix : string.

Lemma remove_first_subset (t t' : Task) l :
  t' ∈ remove_first t l → t' ∈ l.
Proof.
  induction l as [|x l IH]; simpl; [done|].
  case_decide.
  - by right.
  - intros [->|?]%elem_of_cons; [left | right; auto].
Qed.

Lemma complete_pending_subset w t t' :
  t' ∈ pending (complete get prefix w t) → t' ∈ pending w.
Proof.
  unfold complete. case_decide; [|done]. simpl.
  apply remove_first_subset.
Qed.

Lemma run_pending_subset sched : ∀ w t',
  t' ∈ pending (run get prefix w sched) → t' ∈ pending w.
Proof.
  induction sched as [|t sched IH]; intros w t' Hin; [done|].
  simpl in Hin. apply IH in Hin. by eapply complete_pending_subset.
Qed.

(** When the returned promise covers every translation started, its
    settling means that nothing is pending. *)
Lemma settled_all_started routes started sched :
  settled started (run get prefix (mkPending routes started) sched) = true →
  pending (run get prefix (mkPending routes started) sched) = [].
Proof.
  intros Hs. unfold settled in Hs. rewrite forallb_forall in Hs.
  destruct (pending _) as [|t ts] eqn:Hp; [done|].
  assert (Hin : t ∈ started).
  { apply (run_pending_subset sched (mkPending routes started)).
    rewrite Hp. left. }
  apply list_elem_of_In, Hs, bool_decide_eq_true in Hin.
  destruct Hin. left.
Qed.

Lemma push_translatePromise_same original addr property s s' :
  s.1 = s.2 →
  push_translatePromise original addr property s = Some s' →
  s'.1 = s'.2.
Proof.
  unfold push_translatePromise. intros Heq.
  destruct (original ≫= property_of property) as [src|]; [|done].
  simpl. intros [= <-]. simpl. by rewrite Heq.
Qed.

Lemma startNode_flat original addr route s s' :
  children route = None → s.1 = s.2 →
  startNode original addr route s = Some s' →
  s'.1 = s'.2.
Proof.
  destruct route as [p rd pm ch]. simpl. intros -> Heq.
  destruct (Js.otruthy p).
  - destruct (push_translatePromise original addr PropPath s) as [s1|] eqn:H1;
      [|done]. simpl.
    pose proof (push_translatePromise_same _ _ _ _ _ Heq H1) as Heq1.
    destruct (Js.otruthy rd).
    + destruct (push_translatePromise original addr PropRedirectTo s1)
        as [s2|] eqn:H2; [|done]. simpl. intros [= <-].
      by eapply push_translatePromise_same.
    + simpl. by intros [= <-].
  - simpl. destruct (Js.otruthy rd).
    + destruct (push_translatePromise original addr PropRedirectTo s)
        as [s2|] eqn:H2; [|done]. simpl. intros [= <-].
      by eapply push_translatePromise_same.
    + simpl. by intros [= <-].
Qed.

(** For an array of nodes without children the returned promise covers
    every translation started. *)
Lemma startRouteTree_flat routes originals promises started :
  Forall (fun r => children r = None) routes →
  startRouteTree routes originals = Some (promises, started) →
  promises = started.
Proof.
  unfold startRouteTree. intros Hflat.
  assert (Hgen : ∀ k s s',
            s.1 = s.2 →
            forEachM
              (fun index route s =>
                 os ← originals; startNode (os !! index) [index] route s)
              k routes s = Some s' →
            s'.1 = s'.2).
  { induction Hflat as [|r rs Hr _ IH]; intros k s s' Heq; simpl.
    - by intros [= <-].
    - destruct originals as [os|]; [|done]. simpl.
      destruct (startNode (os !! k) [k] r s) as [s1|] eqn:H1; [|done].
      simpl. apply IH. by eapply startNode_flat. }
  intros Hrun. by apply (Hgen 0 ([], []) (promises, started)).
Qed.

End PendingFacts.

(** In general: the promises under the returned [Promise.all] are those of
    the nodes of the array the call was made on, whatever lies below
    them. *)
Lemma startNode_promises original addr route s s' :
  startNode original addr route s = Some s' →
  ∃ own, s'.1 = s.1 ++ own ∧ Forall (fun t => destination t = addr) own.
Proof.
  destruct route as [p rd pm ch]. simpl.
  assert (Hpush : ∀ (b : bool) property s0 s1,
            (if b then push_translatePromise original addr property s0
             else Some s0) = Some s1 →
            ∃ own, s1.1 = s0.1 ++ own
                   ∧ Forall (fun t => destination t = addr) own).
  { intros [|] property s0 s1.
    - unfold push_translatePromise.
      destruct (original ≫= property_of property) as [src|]; [|done]. simpl.
      intros [= <-]. eexists [_]. split; [done|]. by constructor.
    - intros [= <-]. exists []. by rewrite app_nil_r. }
  destruct (if Js.otruthy p
            then push_translatePromise original addr PropPath s
            else Some s) as [s1|] eqn:H1; [|done]. simpl.
  destruct (if Js.otruthy rd
            then push_translatePromise original addr PropRedirectTo s1
            else Some s1) as [s2|] eqn:H2; [|done]. simpl.
  destruct (Hpush _ _ _ _ H1) as (own1 & Hs1 & Hown1).
  destruct (Hpush _ _ _ _ H2) as (own2 & Hs2 & Hown2).
  assert (H12 : ∃ own, s2.1 = s.1 ++ own
                       ∧ Forall (fun t => destination t = addr) own).
  { exists (own1 ++ own2). rewrite Hs2, Hs1, <- app_assoc.
    split; [done|]. by apply Forall_app. }
  destruct ch as [cs|].
  - destruct original as [o|]; [|done]. simpl.
    destruct (forEachM _ 0 cs _) as [inner|]; [|done]. simpl.
    by intros [= <-].
  - by intros [= <-].
Qed.

(** X20: whatever the tree, every promise under the [Promise.all] that
    [_translateRouteTree] returns belongs to a node of the array the call
    was made on: its destination is an address of length one. *)
Lemma startRouteTree_promises routes originals promises started :
  startRouteTree routes originals = Some (promises, started) →
  Forall (fun t => length (destination t) = 1) promises.
Proof.
  unfold startRouteTree.
  assert (Hgen : ∀ k s s',
            Forall (fun t => length (destination t) = 1) s.1 →
            forEachM
              (fun index route s =>
                 os ← originals; startNode (os !! index) [index] route s)
              k routes s = Some s' →
            Forall (fun t => length (destination t) = 1) s'.1).
  { induction routes as [|r rs IH]; intros k s s' Hs; simpl.
    - by intros [= <-].
    - destruct originals as [os|]; [|done]. simpl.
      destruct (startNode (os !! k) [k] r s) as [s1|] eqn:H1; [|done].
      simpl. apply IH.
      destruct (startNode_promises _ _ _ _ _ H1) as (own & -> & Hown).
      apply Forall_app. split; [done|].
      eapply Forall_impl; [exact Hown|]. by intros t ->. }
  intros Hrun. apply (Hgen 0 ([], []) (promises, started)); [|done].
  constructor.
Qed.

(** ** Pending translations and the translator agree *)

Lemma set_children_same r : set_children (children r) r = r.
Proof. by destruct r. Qed.

Lemma update_list_at_ext g g' addr : ∀ rs,
  (∀ l, list_at rs addr = Some l → g l = g' l) →
  update_list_at g addr rs = update_list_at g' addr rs.
Proof.
  induction addr as [|i addr IH]; intros rs Hext; simpl.
  - by apply Hext.
  - apply list_alter_ext; [|done]. intros r Hr. f_equal.
    destruct (children r) as [cs|] eqn:Hcs; [|done]. simpl. f_equal.
    apply IH. intros l Hl. apply Hext. simpl. rewrite Hr. simpl.
    by rewrite Hcs.
Qed.

Lemma update_list_at_same addr : ∀ rs l,
  list_at rs addr = Some l →
  update_list_at (fun _ => l) addr rs = rs.
Proof.
  induction addr as [|i addr IH]; intros rs l Hl; simpl in *.
  - by injection Hl.
  - destruct (rs !! i) as [r|] eqn:Hr; [|done]. simpl in Hl.
    destruct (children r) as [cs|] eqn:Hcs; [|done]. simpl in Hl.
    rewrite <- (list_insert_id rs i r Hr) at 2.
    rewrite list_insert_alter. apply list_alter_ext; [|done].
    intros r' Hr'. rewrite Hr in Hr'. injection Hr' as <-.
    rewrite Hcs. simpl. rewrite (IH cs l Hl). rewrite <- Hcs.
    apply set_children_same.
Qed.

Lemma update_list_at_compose g g' addr : ∀ rs,
  update_list_at g addr (update_list_at g' addr rs)
  = update_list_at (g ∘ g') addr rs.
Proof.
  induction addr as [|i addr IH]; intros rs; simpl; [done|].
  rewrite list_alter_alter_eq. apply list_alter_ext; [|done].
  intros r _. simpl. unfold set_children at 1 2 3. simpl. f_equal.
  destruct (children r) as [cs|]; [|done]. simpl. f_equal. apply IH.
Qed.

Lemma list_at_update g addr : ∀ rs,
  list_at (update_list_at g addr rs) addr = g <$> list_at rs addr.
Proof.
  induction addr as [|i addr IH]; intros rs; simpl; [done|].
  rewrite list_lookup_alter_eq.
  destruct (rs !! i) as [r|]; [|done]. simpl.
  destruct (children r) as [cs|]; [|done]. simpl. apply IH.
Qed.

(** The children of the node at index [k] of the array at [addr] are the
    array at [addr ++ [k]]. *)
Lemma list_at_snoc addr k : ∀ rs l c,
  list_at rs addr = Some l → l !! k = Some c →
  list_at rs (addr ++ [k]) = children c.
Proof.
  induction addr as [|i addr IH]; intros rs l c Hl Hc; simpl in *.
  - injection Hl as ->. rewrite Hc. simpl. by destruct (children c).
  - destruct (rs !! i) as [r|]; [|done]. simpl in *.
    destruct (children r) as [cs|]; [|done]. simpl in *.
    by apply (IH cs l c).
Qed.

Lemma update_list_at_snoc g addr k : ∀ rs,
  update_list_at g (addr ++ [k]) rs
  = update_list_at
      (alter (fun r => set_children (g <$> children r) r) k) addr rs.
Proof.
  induction addr as [|i addr IH]; intros rs; simpl; [done|].
  apply list_alter_ext; [|done]. intros r _. f_equal.
  destruct (children r) as [cs|]; [|done]. simpl. f_equal. apply IH.
Qed.

Lemma write_at_snoc property v addr k : ∀ rs,
  write_at property v (addr ++ [k]) rs
  = update_list_at (alter (set_property property (Some v)) k) addr rs.
Proof.
  induction addr as [|i addr IH]; intros rs; simpl; [done|].
  apply list_alter_ext; [|done]. intros r _.
  destruct (addr ++ [k]) as [|j rest] eqn:Hsnoc.
  { by destruct addr. }
  f_equal.
  destruct (children r) as [cs|]; [|done]. simpl. f_equal. apply IH.
Qed.

Lemma alter_at_insert {A : Type} (f : A → A) (l : list A) k x :
  l !! k = Some x → alter f k l = <[k := f x]> l.
Proof.
  intros Hx. rewrite list_insert_alter. apply list_alter_ext; [|done].
  intros y Hy. rewrite Hx in Hy. by injection Hy as <-.
Qed.

Lemma set_property_same property c :
  set_property property (property_of property c) c = c.
Proof. by destruct c, property. Qed.

Section Agreement.

Variable get : string -> string.
Variable prefix : string.

Lemma run_started ts : ∀ rs extra,
  run get prefix (mkPending rs (ts ++ extra)) ts
  = mkPending (foldl (write_task get prefix) rs ts) extra.
Proof.
  induction ts as [|t ts IH]; intros rs extra; [done|].
  simpl. unfold complete at 1. simpl.
  rewrite decide_True by left. rewrite decide_True by done. apply IH.
Qed.

(** The translation a node starts for one of its own fields, or none: its
    write puts the new value of the field into the node. *)
Lemma own_task (b : bool) original addr k property (s s1 : Started) :
  (if b then push_translatePromise original (addr ++ [k]) property s
   else Some s) = Some s1 →
  ∃ D,
    s1.2 = s.2 ++ D
    ∧ ∀ vcur, ∃ v',
        (if b
         then Some <$> _getTranslatePromise get prefix original
                         (property_of property)
         else Some vcur) = Some v'
        ∧ ∀ R l c,
            list_at R addr = Some l → l !! k = Some c →
            property_of property c = vcur →
            foldl (write_task get prefix) R D
            = update_list_at (fun _ => <[k := set_property property v' c]> l)
                addr R.
Proof.
  destruct b.
  - unfold push_translatePromise, _getTranslatePromise.
    destruct (original ≫= property_of property) as [src|]; [|done]. simpl.
    intros [= <-]. eexists [_]. split; [done|]. intros vcur.
    eexists. split; [done|]. intros R l c HR Hc _. simpl.
    unfold write_task. simpl. rewrite write_at_snoc.
    apply update_list_at_ext. intros l' Hl'. rewrite HR in Hl'.
    injection Hl' as <-. by apply alter_at_insert.
  - intros [= <-]. exists []. split; [by rewrite app_nil_r|]. intros vcur.
    exists vcur. split; [done|]. intros R l c HR Hc <-. simpl.
    rewrite set_property_same, (list_insert_id l k c Hc).
    by rewrite update_list_at_same.
Qed.

Local Abbreviation node_agrees c :=
  (∀ o addr k (s s' : Started),
     startNode o (addr ++ [k]) c s = Some s' →
     ∃ D c',
       s'.2 = s.2 ++ D
       ∧ translateNode get prefix o c = (c', true)
       ∧ ∀ R l,
           list_at R addr = Some l → l !! k = Some c →
           foldl (write_task get prefix) R D
           = update_list_at (fun _ => <[k := c']> l) addr R).

Lemma list_agrees cs :
  Forall (fun c => node_agrees c) cs →
  ∀ (os : option Routes) addr k (s s' : Started),
    forEachM
      (fun index c s =>
         os' ← os; startNode (os' !! index) (addr ++ [index]) c s)
      k cs s = Some s' →
    ∃ D cs',
      s'.2 = s.2 ++ D
      ∧ forEach_from
          (fun index c =>
             match os with
             | None => (c, false)
             | Some os' => translateNode get prefix (os' !! index) c
             end) k cs = (cs', true)
      ∧ ∀ R pre,
          list_at R addr = Some (pre ++ cs) → length pre = k →
          foldl (write_task get prefix) R D
          = update_list_at (fun _ => pre ++ cs') addr R.
Proof.
  induction cs as [|c cs IH]; intros Hall os addr k s s' Hrun.
  - injection Hrun as <-. exists [], []. split; [by rewrite app_nil_r|].
    split; [done|]. intros R pre HR _. simpl.
    by rewrite update_list_at_same.
  - apply Forall_cons in Hall as [Hc Hcs]. simpl in Hrun.
    destruct os as [os'|]; [|done]. simpl in Hrun.
    destruct (startNode (os' !! k) (addr ++ [k]) c s) as [s1|] eqn:H1;
      [|done]. simpl in Hrun.
    destruct (Hc _ _ _ _ _ H1) as (D1 & c' & Hs1 & Htr & Hw1).
    destruct (IH Hcs (Some os') addr (S k) s1 s' Hrun)
      as (D2 & cs' & Hs' & Hsync & Hw2).
    exists (D1 ++ D2), (c' :: cs'). split.
    { by rewrite Hs', Hs1, app_assoc. }
    split.
    { simpl. rewrite Htr. by rewrite Hsync. }
    intros R pre HR Hlen. rewrite foldl_app.
    assert (Hk : (pre ++ c :: cs) !! k = Some c).
    { subst k. apply list_lookup_middle. done. }
    rewrite (Hw1 R (pre ++ c :: cs) HR Hk).
    assert (Hins : <[k := c']> (pre ++ c :: cs) = (pre ++ [c']) ++ cs).
    { subst k. rewrite insert_app_r_alt, Nat.sub_diag by lia.
      simpl. by rewrite <- app_assoc. }
    rewrite Hins.
    rewrite (Hw2 _ (pre ++ [c'])).
    + rewrite update_list_at_compose. apply update_list_at_ext.
      intros l _. simpl. by rewrite <- app_assoc.
    + by rewrite list_at_update, HR.
    + rewrite length_app. simpl. lia.
Qed.

Lemma node_agrees_all c : node_agrees c.
Proof.
  induction c as [p rd pm|p rd pm cs IH] using Route_forall_ind;
    intros o addr k s s' Hstart; simpl in Hstart;
    (destruct (if Js.otruthy p
               then push_translatePromise o (addr ++ [k]) PropPath s
               else Some s) as [s1|] eqn:H1; [|done]); simpl in Hstart;
    (destruct (if Js.otruthy rd
               then push_translatePromise o (addr ++ [k]) PropRedirectTo s1
               else Some s1) as [s2|] eqn:H2; [|done]); simpl in Hstart;
    destruct (own_task _ _ _ _ _ _ _ H1) as (D1 & Hs1 & Hv1);
    destruct (Hv1 p) as (p' & Hp' & Hw1);
    destruct (own_task _ _ _ _ _ _ _ H2) as (D2 & Hs2 & Hv2);
    destruct (Hv2 rd) as (rd' & Hrd' & Hw2).
  - injection Hstart as <-.
    exists (D1 ++ D2), (mkRoute p' rd' pm None). split.
    { by rewrite Hs2, Hs1, app_assoc. }
    split.
    { simpl. simpl in Hp', Hrd'. by rewrite Hp', Hrd'. }
    intros R l HR Hk. rewrite foldl_app.
    rewrite (Hw1 R l _ HR Hk eq_refl). simpl.
    assert (Hlt : k < length l) by (by eapply lookup_lt_Some).
    rewrite (Hw2 _ (<[k := mkRoute p' rd pm None]> l)
               (mkRoute p' rd pm None)).
    + rewrite update_list_at_compose. apply update_list_at_ext.
      intros l' _. simpl. by rewrite list_insert_insert_eq.
    + by rewrite list_at_update, HR.
    + by apply list_lookup_insert_eq.
    + done.
  - destruct o as [o'|]; [|done]. simpl in Hstart.
    destruct (forEachM _ 0 cs ([], s2.2)) as [inner|] eqn:Hin; [|done].
    simpl in Hstart. injection Hstart as <-.
    destruct (list_agrees cs IH (children o') (addr ++ [k]) 0 _ _ Hin)
      as (D3 & cs' & Hin2 & Hsync & Hw3).
    exists (D1 ++ D2 ++ D3), (mkRoute p' rd' pm (Some cs')). split.
    { simpl in *. by rewrite Hin2, Hs2, Hs1, !app_assoc. }
    split.
    { simpl. simpl in Hp', Hrd'. rewrite Hp', Hrd'. by rewrite Hsync. }
    intros R l HR Hk. rewrite !foldl_app.
    rewrite (Hw1 R l _ HR Hk eq_refl). simpl.
    assert (Hlt : k < length l) by (by eapply lookup_lt_Some).
    rewrite (Hw2 _ (<[k := mkRoute p' rd pm (Some cs)]> l)
               (mkRoute p' rd pm (Some cs)));
      [|by rewrite list_at_update, HR
       |by apply list_lookup_insert_eq
       |done].
    rewrite update_list_at_compose. simpl.
    set (R2 := update_list_at _ addr R).
    assert (HR2 : list_at R2 addr
                  = Some (<[k := mkRoute p' rd' pm (Some cs)]> l)).
    { unfold R2. rewrite list_at_update, HR. simpl.
      by rewrite list_insert_insert_eq. }
    rewrite (Hw3 R2 []);
      [|rewrite (list_at_snoc addr k R2 _ (mkRoute p' rd' pm (Some cs)) HR2);
        [done | by apply list_lookup_insert_eq]
       |done].
    rewrite update_list_at_snoc. unfold R2.
    rewrite update_list_at_compose. apply update_list_at_ext.
    intros l' _. simpl.
    rewrite (alter_at_insert _ _ k (mkRoute p' rd' pm (Some cs)));
      [|rewrite list_insert_insert_eq; by apply list_lookup_insert_eq].
    by rewrite !list_insert_insert_eq.
Qed.

(** X19: when the provider has answered every translation started, in
    the order they were started, nothing is pending and the live tree is
    the one [_translateRouteTree] yields when the provider answers at
    once; and that call returns. *)
Lemma pending_run_complete routes originals promises started :
  startRouteTree routes originals = Some (promises, started) →
  run get prefix (mkPending routes started) started
  = mkPending (_translateRouteTree get prefix routes originals).1 []
  ∧ (_translateRouteTree get prefix routes originals).2 = true.
Proof.
  intros Hstart. unfold startRouteTree in Hstart.
  destruct (list_agrees routes) with (os := originals) (addr := @nil nat)
    (k := 0) (s := (@nil Task, @nil Task)) (s' := (promises, started))
    as (D & cs' & HD & Hsync & Hw).
  - apply Forall_forall. intros c _. apply node_agrees_all.
  - exact Hstart.
  - simpl in HD. subst D. unfold _translateRouteTree. rewrite Hsync.
    split; [|done]. simpl.
    rewrite <- (app_nil_r started) at 1. rewrite run_started.
    by rewrite (Hw routes []).
Qed.

End Agreement.

(** * Further properties *)

(** ** Splitting and joining *)

Lemma string_app_assoc (a b c : string) : (a +:+ b) +:+ c = a +:+ (b +:+ c).
Proof.
  induction a as [|x a IH]; [done|].
  change (String x ((a +:+ b) +:+ c) = String x (a +:+ (b +:+ c))).
  by f_equal.
Qed.

Lemma ascii_eqb_slash c : Ascii.eqb c slash = true ↔ c = slash.
Proof. apply Ascii.eqb_eq. Qed.

Lemma join_cons x y l :
  Js.join "/" (x :: y :: l) = x +:+ "/" +:+ Js.join "/" (y :: l).
Proof. done. Qed.

Lemma join_split s : Js.join "/" (Js.split slash s) = s.
Proof.
  induction s as [|c s IH]; [done|]. simpl.
  destruct (Ascii.eqb c slash) eqn:Hc.
  - apply ascii_eqb_slash in Hc as ->.
    destruct (Js.split slash s) as [|w ws] eqn:Hs.
    { by apply split_nonempty in Hs. }
    rewrite join_cons, IH. done.
  - destruct (Js.split slash s) as [|w ws] eqn:Hs.
    { by apply split_nonempty in Hs. }
    rewrite <- IH. by destruct ws.
Qed.

Lemma split_no_slash s : Forall (fun w => no_slash w = true) (Js.split slash s).
Proof.
  induction s as [|c s IH]; simpl; [by constructor|].
  destruct (Ascii.eqb c slash) eqn:Hc; [by constructor|].
  destruct (Js.split slash s) as [|w ws]; [by constructor; [simpl; rewrite Hc|]|].
  apply Forall_cons in IH as [Hw Hws]. constructor; [|done].
  simpl. by rewrite Hc.
Qed.

Lemma split_whole s : no_slash s = true → Js.split slash s = [s].
Proof.
  induction s as [|c s IH]; simpl; [done|].
  intros [Hc Hs]%andb_true_iff. apply negb_true_iff in Hc. rewrite Hc.
  by rewrite (IH Hs).
Qed.

Lemma split_app a b :
  Js.split slash (a +:+ "/" +:+ b) = Js.split slash a ++ Js.split slash b.
Proof.
  induction a as [|c a IH]; [done|]. simpl.
  destruct (Ascii.eqb c slash); [by rewrite IH|].
  rewrite IH. destruct (Js.split slash a) as [|w ws] eqn:Ha; [|done].
  by apply split_nonempty in Ha.
Qed.

Lemma split_join l :
  l ≠ [] → Forall (fun w => no_slash w = true) l →
  Js.split slash (Js.join "/" l) = l.
Proof.
  induction l as [|x l IH]; [done|]. intros _ [Hx Hl]%Forall_cons.
  destruct l as [|y l]; [by apply split_whole|].
  rewrite join_cons, split_app, IH by done. by rewrite split_whole.
Qed.

Lemma join_app l1 l2 :
  l1 ≠ [] → l2 ≠ [] →
  Js.join "/" (l1 ++ l2) = Js.join "/" l1 +:+ "/" +:+ Js.join "/" l2.
Proof.
  induction l1 as [|x l1 IH]; [done|]. intros _ H2.
  destruct l1 as [|y l1].
  - destruct l2 as [|z l2]; [done|]. done.
  - cbn [app]. rewrite !join_cons. cbn [app] in IH. rewrite IH by done.
    by rewrite !string_app_assoc.
Qed.

(** ** [translateRoute], further *)

(** X1: a path whose non-empty components all miss in the provider (the
    lookup of [prefix + component] returns the key) is translated to
    itself. *)
Theorem translateRoute_all_miss (get : string -> string)
    (prefix path : string) :
  (∀ s, s ∈ Js.split slash path → s ≠ "" →
        get (prefix +:+ s) = prefix +:+ s) →
  translateRoute get prefix path = path.
Proof.
  intros Hmiss. unfold translateRoute. rewrite translatedSegments_map.
  rewrite <- (join_split path) at 2. f_equal.
  rewrite <- (list_fmap_id (Js.split slash path)) at 2.
  apply list_fmap_ext. intros i s Hs. unfold translateSegment_spec. simpl.
  case_decide; [done|]. rewrite decide_True; [done|].
  apply Hmiss; [|done]. by eapply list_elem_of_lookup_2.
Qed.

Lemma translateRoute_all_miss_witness :
  translateRoute (table_get [("ROUTES.about", "a-propos")]) "ROUTES."
    "/user/:id/edit" = "/user/:id/edit".
Proof.
  apply (translateRoute_all_miss (table_get [("ROUTES.about", "a-propos")])
           "ROUTES." "/user/:id/edit").
  intros s Hs _. vm_compute in Hs.
  repeat (apply elem_of_cons in Hs as [->|Hs]; [reflexivity|]).
  by apply elem_of_nil in Hs.
Defined.

(** X2: [translateRoute] works component by component across every
    ['/']: the translation of [a + '/' + b] is the translation of [a],
    a ['/'], and the translation of [b]. Leading, trailing and doubled
    slashes are kept. *)
Theorem translateRoute_slash (get : string -> string) (prefix a b : string) :
  translateRoute get prefix (a +:+ "/" +:+ b)
  = translateRoute get prefix a +:+ "/" +:+ translateRoute get prefix b.
Proof.
  unfold translateRoute. rewrite !translatedSegments_map, split_app, fmap_app.
  apply join_app; intros Hnil%fmap_nil_inv; by apply split_nonempty in Hnil.
Qed.

(** X3: the observable of [translateRoute] emits nothing as long as the
    lookup of some component has not been answered. *)
Theorem translateRoute_waits_for_all (get : string -> string)
    (prefix path : string) (sched : list nat) :
  translateRoute_sched get prefix path sched = None
  ↔ ∃ i key,
      routeObservables prefix (Js.split slash path) !! i = Some (ObsGet key)
      ∧ i ∉ sched.
Proof.
  unfold translateRoute_sched. set (obs := routeObservables prefix _).
  rewrite fmap_None. unfold forkJoin_sched. rewrite mapM_None.
  rewrite Exists_exists. split.
  - intros (slot & Hin & Hnone). simpl in Hnone. subst slot.
    apply list_elem_of_lookup in Hin as [i Hi].
    rewrite answered_slot in Hi
      by (unfold subscribeAll; by rewrite length_fmap).
    unfold subscribeAll in Hi. rewrite list_lookup_fmap in Hi.
    destruct (obs !! i) as [[v|key]|] eqn:Hobs; try done.
    exists i, key. split; [done|]. by case_decide.
  - intros (i & key & Hobs & Hnot). exists None. split; [|done].
    apply list_elem_of_lookup. exists i.
    rewrite answered_slot by (unfold subscribeAll; by rewrite length_fmap).
    rewrite Hobs, decide_False by done.
    unfold subscribeAll. by rewrite list_lookup_fmap, Hobs.
Qed.

(** ** The route tree translator, further *)

Lemma forEach_from_fmap_inv {A B : Type} (h : A → B)
    (f : nat → A → A * bool) l : ∀ k,
  Forall (fun x => ∀ i, h (f i x).1 = h x) l →
  h <$> (forEach_from f k l).1 = h <$> l.
Proof.
  induction l as [|x l IH]; intros k Hall; [done|].
  apply Forall_cons in Hall as [Hx Hl]. simpl.
  specialize (Hx k). destruct (f k x) as [x' [|]]; simpl in *.
  - specialize (IH (S k) Hl).
    destruct (forEach_from f (S k) l) as [l'' ok']. simpl in IH.
    cbn [fst]. change (h x' :: (h <$> l'') = h x :: (h <$> l)).
    by rewrite Hx, IH.
  - cbn [fst]. change (h x' :: (h <$> l) = h x :: (h <$> l)).
    by rewrite Hx.
Qed.

Lemma forEach_from_same {A : Type} (f : nat → A → A * bool) l : ∀ k,
  (∀ i x, l !! i = Some x → f (k + i) x = (x, true)) →
  forEach_from f k l = (l, true).
Proof.
  induction l as [|x l IH]; intros k Hall; [done|]. simpl.
  pose proof (Hall 0 x eq_refl) as Hx. rewrite Nat.add_0_r in Hx.
  rewrite Hx, IH; [done|].
  intros i y Hy. replace (S k + i) with (k + S i) by lia.
  by apply Hall.
Qed.

Section RouteTreeExtras.

Variable get : string -> string.
Variable prefix : string.

Lemma translateNode_skeleton r : ∀ original,
  skeleton (translateNode get prefix original r).1 = skeleton r.
Proof.
  induction r as [p rd pm|p rd pm cs IH] using Route_forall_ind;
    intros original; simpl.
  - destruct (if Js.otruthy p then _ else _) as [p'|]; [|done].
    by destruct (if Js.otruthy rd then _ else _) as [rd'|].
  - destruct (if Js.otruthy p then _ else _) as [p'|]; [|done].
    destruct (if Js.otruthy rd then _ else _) as [rd'|]; [|done].
    destruct original as [o|]; [|done].
    pose proof (forEach_from_fmap_inv skeleton
                  (fun index c =>
                     match children o with
                     | None => (c, false)
                     | Some os => translateNode get prefix (os !! index) c
                     end) cs 0) as Hcs.
    destruct (forEach_from _ 0 cs) as [cs' ok]. simpl in *.
    rewrite Hcs; [done|].
    eapply Forall_impl; [exact IH|]. simpl. intros c Hc i.
    by destruct (children o).
Qed.

(** X4: whether it returns or throws, [_translateRouteTree] keeps the
    nodes of the tree, their order, their [pathMatch] and the shape of
    their children: it writes nothing but [path] and [redirectTo]. *)
Theorem translateRouteTree_keeps_skeleton (routes : Routes)
    (originals : option Routes) :
  skeleton <$> (_translateRouteTree get prefix routes originals).1
  = skeleton <$> routes
  ∧ length (_translateRouteTree get prefix routes originals).1
    = length routes.
Proof.
  unfold _translateRouteTree. split; [|apply forEach_from_length].
  apply forEach_from_fmap_inv. apply Forall_forall. intros r _ i.
  destruct originals; [apply translateNode_skeleton | done].
Qed.

Lemma translateNode_all_miss r :
  (∀ key, get key = key) →
  translateNode get prefix (Some r) r = (r, true).
Proof.
  intros Hid.
  assert (Htr : ∀ s, translateRoute get prefix s = s).
  { intros s. unfold translateRoute. rewrite translatedSegments_map.
    rewrite <- (join_split s) at 2. f_equal.
    rewrite <- (list_fmap_id (Js.split slash s)) at 2.
    apply list_fmap_ext. intros i w _. unfold translateSegment_spec. simpl.
    case_decide; [done|]. by rewrite Hid, decide_True. }
  induction r as [p rd pm|p rd pm cs IH] using Route_forall_ind; simpl;
    unfold _getTranslatePromise; simpl.
  - destruct p as [[|c p]|], rd as [[|c' rd]|]; simpl; by rewrite ?Htr.
  - rewrite (forEach_from_same _ cs 0).
    + destruct p as [[|c p]|], rd as [[|c' rd]|]; simpl; by rewrite ?Htr.
    + intros i x Hx. simpl. rewrite Hx. rewrite Forall_forall in IH.
      apply IH. by eapply list_elem_of_lookup_2.
Qed.

(** X5: with a provider that has no translation at all (every lookup
    returns its key), translating a tree against a copy of itself returns
    and leaves the tree as it is. *)
Theorem translateRouteTree_all_miss (routes : Routes) :
  (∀ key, get key = key) →
  _translateRouteTree get prefix routes (Some routes) = (routes, true).
Proof.
  intros Hid. unfold _translateRouteTree. apply forEach_from_same.
  intros i x Hx. simpl. rewrite Hx. by apply translateNode_all_miss.
Qed.

End RouteTreeExtras.

Lemma translateRouteTree_all_miss_witness :
  _translateRouteTree (fun key => key) "ROUTES." scenario_routes
    (Some scenario_routes) = (scenario_routes, true).
Proof.
  apply (translateRouteTree_all_miss (fun key => key) "ROUTES."
           scenario_routes).
  reflexivity.
Defined.

(** ** The parser, further *)

(** X6: [translateRoutes] on a parser whose routes are not loaded, or
    whose root array has fewer than two nodes, throws; by then it has
    switched the translation service, assigned the active locale and
    stored the preference, and it leaves the routes as they were. *)
Theorem translateRoutes_without_container
    (provider : TranslateService -> string -> string)
    (language : option string) (st : Parser) :
  (routes st = None ∨ ∃ live, routes st = Some live ∧ length live ≤ 1) →
  (translateRoutes provider language st).2 = false
  ∧ routes (translateRoutes provider language st).1 = routes st
  ∧ currentLang (translateRoutes provider language st).1 = language
  ∧ ts_currentLang (translate (translateRoutes provider language st).1)
    = language
  ∧ (window_defined st = true →
     localStorage (translateRoutes provider language st).1
     = Some (js_string language)).
Proof.
  intros Hroutes. unfold translateRoutes, set_cachedLang. simpl.
  destruct Hroutes as [Hr | (live & Hr & Hlen)].
  - destruct (window_defined st) eqn:Hw; simpl; rewrite Hr; simpl;
      rewrite ?Hw; by repeat split.
  - assert (Hno : live !! 1 = None) by (apply lookup_ge_None; lia).
    destruct (window_defined st) eqn:Hw; simpl; rewrite Hr, Hno; simpl;
      rewrite ?Hw, ?Hr; by repeat split.
Qed.

Lemma translateRoutes_without_container_witness :
  (translateRoutes scenario_provider (Some "fr")
     (scenario_parser "/fr/about")).2 = false
  ∧ currentLang
      (translateRoutes scenario_provider (Some "fr")
         (scenario_parser "/fr/about")).1 = Some "fr".
Proof.
  destruct (translateRoutes_without_container scenario_provider (Some "fr")
              (scenario_parser "/fr/about")) as (Hthrow & _ & Hcur & _).
  - left. reflexivity.
  - split; [exact Hthrow | exact Hcur].
Defined.

(** X7: after a [translateRoutes] that returns, the locale is the same
    everywhere: the path of the container node, the active locale, the
    language of the translation service and, with a window, the stored
    preference. The root array keeps its length, and its node at index 0,
    the default redirect, is never rewritten. *)
Theorem translateRoutes_switches_everywhere
    (provider : TranslateService -> string -> string)
    (language : option string) (st st1 : Parser) :
  translateRoutes provider language st = (st1, true) →
  ∃ live live1 container1,
    routes st = Some live
    ∧ routes st1 = Some live1
    ∧ length live1 = length live
    ∧ live1 !! 0 = live !! 0
    ∧ live1 !! 1 = Some container1
    ∧ path container1 = language
    ∧ currentLang st1 = language
    ∧ ts_currentLang (translate st1) = language
    ∧ (window_defined st = true →
       localStorage st1 = Some (js_string language)).
Proof.
  intros Hrun.
  destruct (translateRoutes_returns _ _ _ _ Hrun)
    as (live & container & cs & cs1 & Hlive & Hc & Hcs & Htree & Hr1
        & Ho1 & Hp1 & Ht1).
  destruct (translateRoutes_trace provider language st)
    as (_ & Hcur & Hstore).
  rewrite Hrun in Hcur, Hstore. simpl in Hcur, Hstore.
  assert (Hlt : 1 < length live) by (by eapply lookup_lt_Some).
  eexists live, _, _. split; [done|]. split; [exact Hr1|].
  split; [by rewrite length_insert|].
  split; [by rewrite list_lookup_insert_ne|].
  split; [by apply list_lookup_insert_eq|].
  split; [done|]. split; [done|]. split; [by rewrite Ht1 | done].
Qed.

Lemma translateRoutes_switches_everywhere_witness :
  ∃ live live1 container1,
    routes (scenario_loaded "/en/about") = Some live
    ∧ routes (translateRoutes scenario_provider (Some "fr")
                (scenario_loaded "/en/about")).1 = Some live1
    ∧ length live1 = length live
    ∧ live1 !! 0 = live !! 0
    ∧ live1 !! 1 = Some container1
    ∧ path container1 = Some "fr"
    ∧ currentLang (translateRoutes scenario_provider (Some "fr")
                     (scenario_loaded "/en/about")).1 = Some "fr"
    ∧ ts_currentLang
        (translate (translateRoutes scenario_provider (Some "fr")
                      (scenario_loaded "/en/about")).1) = Some "fr"
    ∧ (window_defined (scenario_loaded "/en/about") = true →
       localStorage (translateRoutes scenario_provider (Some "fr")
                       (scenario_loaded "/en/about")).1
       = Some (js_string (Some "fr"))).
Proof.
  apply (translateRoutes_switches_everywhere scenario_provider (Some "fr")
           (scenario_loaded "/en/about")).
  vm_compute. reflexivity.
Defined.

(** X8: storing a locale and reading the cached locale back: the getter
    returns the stored value when there is a window and the value is a
    non-empty member of the locale set, and nothing otherwise; without a
    window the setter stores nothing. *)
Theorem cachedLang_set_get (value : string) (st : Parser) :
  _cachedLang (set_cachedLang (Some value) st)
  = (if window_defined st && bool_decide (value ≠ "")
        && bool_decide (value ∈ locales st)
     then Some value else None)
  ∧ (window_defined st = false → set_cachedLang (Some value) st = st).
Proof.
  unfold _cachedLang, set_cachedLang.
  destruct (window_defined st) eqn:Hw; simpl; [|by rewrite Hw].
  split; [|done]. unfold in_locales. simpl.
  destruct value as [|c v]; simpl; [done|].
  destruct (decide (String c v ∈ locales st)) as [Hin|Hin].
  - rewrite bool_decide_eq_true_2 by done.
    apply indexOf_member in Hin. apply Z.eqb_neq in Hin. by rewrite Hin.
  - rewrite bool_decide_eq_false_2 by done.
    assert (Js.indexOf (locales st) (String c v) = (-1)%Z) as ->; [|done].
    by apply indexOf_absent.
Qed.

(** X9: [getLocationLang] reads the url it is given, or
    [location.pathname] when the url is missing or empty; it returns the
    second slice of the path if that is a locale of the set, else the
    first slice if that is one, else nothing. The second slice has
    precedence over the first. *)
Theorem getLocationLang_slices (url : option string) (st : Parser)
    (l : string) :
  getLocationLang url st = Some l
  ↔ (Js.split slash
       (if Js.otruthy url then default "" url else location_pathname st)
       !! 1 = Some l ∧ l ∈ locales st)
    ∨ ((∀ s1, Js.split slash
                (if Js.otruthy url then default "" url
                 else location_pathname st) !! 1 = Some s1 →
              s1 ∉ locales st)
       ∧ Js.split slash
           (if Js.otruthy url then default "" url else location_pathname st)
           !! 0 = Some l
       ∧ l ∈ locales st).
Proof.
  unfold getLocationLang, slice_in_locales.
  assert (Hurl : match url with
                 | Some u => if Js.truthy u then u else location_pathname st
                 | None => location_pathname st
                 end
                 = (if Js.otruthy url then default "" url
                    else location_pathname st)).
  { destruct url as [u|]; [|done]. simpl. by destruct (Js.truthy u). }
  rewrite Hurl. set (slices := Js.split slash _).
  destruct (slices !! 1) as [s1|] eqn:H1.
  - assert ((1 <? length slices) = true) as ->.
    { apply Nat.ltb_lt. by eapply lookup_lt_Some. }
    simpl. destruct (in_locales st s1) eqn:Hin1.
    + apply in_locales_member in Hin1. split.
      * intros [= <-]. by left.
      * intros [[[= <-] _] | [Hno _]]; [done|]. by destruct (Hno s1).
    + assert (Hn1 : s1 ∉ locales st).
      { intros Hin%in_locales_member. congruence. }
      destruct (slices !! 0) as [s0|] eqn:H0.
      * assert ((0 <? length slices) = true) as ->.
        { apply Nat.ltb_lt. by eapply lookup_lt_Some. }
        simpl. destruct (in_locales st s0) eqn:Hin0.
        -- apply in_locales_member in Hin0. split.
           ++ intros [= <-]. right. split; [|done]. by intros ? [= <-].
           ++ intros [[[= <-] ?] | (_ & [= <-] & _)]; done.
        -- split; [done|].
           intros [[[= <-] ?] | (_ & [= <-] & Hin%in_locales_member)];
             [done | congruence].
      * rewrite andb_false_r. split; [done|].
        intros [[[= <-] ?] | (_ & ? & _)]; done.
  - assert ((1 <? length slices) = false) as ->.
    { apply Nat.ltb_ge. by apply lookup_ge_None. }
    simpl. destruct (slices !! 0) as [s0|] eqn:H0.
    + assert ((0 <? length slices) = true) as ->.
      { apply Nat.ltb_lt. by eapply lookup_lt_Some. }
      simpl. destruct (in_locales st s0) eqn:Hin0.
      * apply in_locales_member in Hin0. split.
        -- intros [= <-]. right. by repeat split.
        -- intros [[? _] | (_ & [= <-] & _)]; done.
      * split; [done|].
        intros [[? _] | (_ & [= <-] & Hin%in_locales_member)];
          [done | congruence].
    + rewrite andb_false_r. split; [done|].
      intros [[? _] | (_ & ? & _)]; done.
Qed.

(** X10: the first [load] with a non-empty locale set always selects a
    locale of the set, and the default language it gives to the
    translation service, which is the target of the root redirect, is a
    locale of the set as well. *)
Theorem first_load_languages_in_set
    (provider : TranslateService -> string -> string)
    (new_routes : Routes) (st : Parser) :
  routes st = None → locales st ≠ [] →
  ∃ selected default_language root,
    currentLang (init provider new_routes st).1 = Some selected
    ∧ selected ∈ locales st
    ∧ ts_defaultLang (translate (init provider new_routes st).1)
      = Some default_language
    ∧ default_language ∈ locales st
    ∧ routes (init provider new_routes st).1 ≫= (.!! 0) = Some root
    ∧ redirectTo root = Some default_language.
Proof.
  intros Hr Hl.
  assert (Hdef : ∃ d, defaultLanguage st = Some d ∧ d ∈ locales st).
  { unfold defaultLanguage, _cachedLang, _getBrowserLang.
    destruct (or_else_cases
                (if window_defined st
                 then _returnIfInLocales (localStorage st) st else None)
                (Js.or_else (_returnIfInLocales (browserLang st) st)
                   (locales st !! 0))) as [Heq | ->].
    - unfold Js.or_else in Heq |- *.
      destruct (Js.otruthy _) eqn:Ht.
      + destruct (window_defined st); [|done].
        destruct (_returnIfInLocales (localStorage st) st) as [c|] eqn:Hc;
          [|done].
        exists c. split; [done|].
        by apply returnIfInLocales_member in Hc as [? _].
      + destruct (_returnIfInLocales (browserLang st) st) as [b|] eqn:Hb.
        * destruct (Js.otruthy (Some b)) eqn:Htb.
          -- exists b. split; [done|].
             by apply returnIfInLocales_member in Hb as [? _].
          -- apply returnIfInLocales_member in Hb as [_ Hb].
             by destruct b.
        * simpl. destruct (locales st) as [|l0 ls] eqn:Hls; [done|].
          exists l0. split; [done | left].
    - destruct (_returnIfInLocales (browserLang st) st) as [b|] eqn:Hb.
      + unfold Js.or_else. destruct (Js.otruthy (Some b)) eqn:Htb.
        * exists b. split; [done|].
          by apply returnIfInLocales_member in Hb as [? _].
        * apply returnIfInLocales_member in Hb as [_ Hb]. by destruct b.
      + unfold Js.or_else. simpl.
        destruct (locales st) as [|l0 ls] eqn:Hls; [done|].
        exists l0. split; [done | left]. }
  destruct Hdef as (d & Hd & Hdin).
  assert (Hsel : ∃ l, selectedLanguage st = Some l).
  { unfold selectedLanguage, Js.or_else.
    destruct (Js.otruthy (getLocationLang None st)) eqn:Ht.
    - destruct (getLocationLang None st) as [l|]; [by exists l | done].
    - by exists d. }
  destruct Hsel as (l & Hsel).
  exists l, d.
  rewrite init_currentLang by done.
  rewrite init_first_call by done.
  destruct (translateRoutes_fields provider (selectedLanguage st)
              (set_routes
                 (Some [mkRoute (Some "") (defaultLanguage st) (Some "full")
                          None;
                        mkRoute None None None (Some new_routes)])
                 (translate_setDefaultLang (defaultLanguage st)
                    (set_originalRouteNames (Some (json_clone new_routes))
                       (set_routes (Some new_routes) st)))))
    as (_ & _ & _ & _ & Htr & _).
  rewrite Htr. simpl.
  exists (mkRoute (Some "") (Some d) (Some "full") None).
  split; [done|]. split; [by apply selectedLanguage_member|].
  split; [done|]. split; [done|]. split; [|done].
  unfold translateRoutes, set_cachedLang. simpl. rewrite Hd.
  destruct (window_defined st); simpl;
    by destruct (_translateRouteTree _ _ new_routes _).
Qed.

Lemma first_load_languages_in_set_witness :
  ∃ selected default_language root,
    currentLang (scenario_loaded "/fr/about") = Some selected
    ∧ selected ∈ ["en"; "fr"]
    ∧ ts_defaultLang (translate (scenario_loaded "/fr/about"))
      = Some default_language
    ∧ default_language ∈ ["en"; "fr"]
    ∧ routes (scenario_loaded "/fr/about") ≫= (.!! 0) = Some root
    ∧ redirectTo root = Some default_language.
Proof.
  apply (first_load_languages_in_set scenario_provider scenario_routes
           (scenario_parser "/fr/about")).
  - reflexivity.
  - discriminate.
Defined.

(** ** Later loads *)

Lemma forEach_from_app {A : Type} (f : nat → A → A * bool) a b : ∀ k a' b',
  forEach_from f k a = (a', true) →
  forEach_from f (k + length a) b = (b', true) →
  forEach_from f k (a ++ b) = (a' ++ b', true).
Proof.
  induction a as [|x a IH]; intros k a' b' Ha Hb; simpl in *.
  - injection Ha as <-. by rewrite Nat.add_0_r in Hb.
  - destruct (f k x) as [x' [|]]; [|done].
    destruct (forEach_from f (S k) a) as [a'' ok] eqn:Hrest.
    injection Ha as <- ->.
    rewrite (IH (S k) a'' b' Hrest); [done|].
    by replace (S k + length a) with (k + S (length a)) by lia.
Qed.

Lemma forEach_from_ext {A : Type} (f g : nat → A → A * bool) l : ∀ k k',
  (∀ i x, l !! i = Some x → f (k + i) x = g (k' + i) x) →
  forEach_from f k l = forEach_from g k' l.
Proof.
  induction l as [|x l IH]; intros k k' Hext; [done|]. simpl.
  pose proof (Hext 0 x eq_refl) as Hx. rewrite !Nat.add_0_r in Hx.
  rewrite Hx. rewrite (IH (S k) (S k')); [done|].
  intros i y Hy. specialize (Hext (S i) y Hy).
  by replace (S k + i) with (k + S i) by lia;
     replace (S k' + i) with (k' + S i) by lia.
Qed.

Lemma translateRouteTree_app get prefix (a b oa ob a' b' : Routes) :
  length a = length oa →
  _translateRouteTree get prefix a (Some oa) = (a', true) →
  _translateRouteTree get prefix b (Some ob) = (b', true) →
  _translateRouteTree get prefix (a ++ b) (Some (oa ++ ob))
  = (a' ++ b', true).
Proof.
  unfold _translateRouteTree. intros Hlen Ha Hb.
  apply forEach_from_app.
  - rewrite <- Ha. apply forEach_from_ext. intros i x Hx. simpl.
    rewrite lookup_app_l; [done|]. rewrite <- Hlen. by eapply lookup_lt_Some.
  - rewrite <- Hb. apply forEach_from_ext. intros i x Hx. simpl.
    rewrite Hlen. by rewrite lookup_app_r, Nat.add_sub' by lia.
Qed.

Lemma init_keeps_config (provider : TranslateService -> string -> string)
    (new_routes : Routes) (st : Parser) :
  locales (init provider new_routes st).1 = locales st
  ∧ prefix (init provider new_routes st).1 = prefix st.
Proof.
  unfold init.
  destruct (routes st) as [live|].
  - destruct (originalRouteNames st) as [originals|]; [|done].
    destruct (live !! 1) as [container|]; [|done].
    destruct (children container) as [cs|]; [|done].
    match goal with
    | |- context [translateRoutes ?p ?l ?s] =>
        destruct (translateRoutes_fields p l s) as (_ & -> & -> & _)
    end. done.
  - simpl. destruct (length (locales st)); [done|].
    match goal with
    | |- context [translateRoutes ?p ?l ?s] =>
        destruct (translateRoutes_fields p l s) as (_ & -> & -> & _)
    end. done.
Qed.

(** X11: a later [load], on a parser whose translated array holds the
    translation to the active locale, returns; it puts the new routes,
    translated to the active locale, in front of the children of the
    container, and their copies in front of the original tree; the routes
    translated before keep their place behind and their paths, and the
    active locale stays. *)
Theorem later_load_prepends
    (provider : TranslateService -> string -> string)
    (new_routes : Routes) (st : Parser) (cs os : Routes) :
  container_children st = Some cs →
  originalRouteNames st = Some os →
  _translateRouteTree
    (provider (mkTranslateService (currentLang st)
                 (ts_defaultLang (translate st))))
    (prefix st) cs (Some os) = (cs, true) →
  (init provider new_routes st).2 = true
  ∧ originalRouteNames (init provider new_routes st).1
    = Some (new_routes ++ os)
  ∧ container_children (init provider new_routes st).1
    = Some ((_translateRouteTree
               (provider (mkTranslateService (currentLang st)
                            (ts_defaultLang (translate st))))
               (prefix st) new_routes (Some new_routes)).1 ++ cs)
  ∧ currentLang (init provider new_routes st).1 = currentLang st.
Proof.
  intros Hcs Hos Hfix. unfold container_children in Hcs.
  destruct (routes st) as [live|] eqn:Hlive; [|done]. simpl in Hcs.
  destruct (live !! 1) as [container|] eqn:Hc; [|done]. simpl in Hcs.
  assert (Hlt : 1 < length live) by (by eapply lookup_lt_Some).
  pose proof (translateRouteTree_self_ok
                (provider (mkTranslateService (currentLang st)
                             (ts_defaultLang (translate st))))
                (prefix st) new_routes) as Hnew.
  destruct (_translateRouteTree _ _ new_routes (Some new_routes))
    as [new' ok] eqn:Htrnew. simpl in Hnew. subst ok.
  pose proof (translateRouteTree_app _ _ new_routes cs new_routes os new' cs
                eq_refl Htrnew Hfix) as Happ.
  unfold init. rewrite Hlive, Hos, Hc, Hcs, json_clone_id.
  unfold translateRoutes, set_cachedLang, container_children. simpl.
  destruct (window_defined st); simpl;
    rewrite list_lookup_insert_eq by done; simpl;
    rewrite Happ; simpl;
    rewrite list_lookup_insert_eq by (by rewrite length_insert);
    by repeat split.
Qed.

(** The lazy routes [[{path: 'about'}]] loaded into the scenario at
    [/fr/about]. *)
Lemma later_load_prepends_witness :
  container_children
    (init scenario_provider [mkRoute (Some "about") None None None]
       (scenario_loaded "/fr/about")).1
  = Some [ mkRoute (Some "a-propos") None None None;
           mkRoute (Some "a-propos") None None None;
           mkRoute (Some "user/:id") None None
             (Some [mkRoute (Some "a-propos") None None None]) ]
  ∧ originalRouteNames
      (init scenario_provider [mkRoute (Some "about") None None None]
         (scenario_loaded "/fr/about")).1
    = Some (mkRoute (Some "about") None None None :: scenario_routes).
Proof.
  destruct (later_load_prepends scenario_provider
              [mkRoute (Some "about") None None None]
              (scenario_loaded "/fr/about")
              [ mkRoute (Some "a-propos") None None None;
                mkRoute (Some "user/:id") None None
                  (Some [mkRoute (Some "a-propos") None None None]) ]
              scenario_routes)
    as (_ & Horig & Hchildren & _).
  - reflexivity.
  - reflexivity.
  - vm_compute. reflexivity.
  - split; [rewrite Hchildren; reflexivity | exact Horig].
Defined.

(** X12: the static loader fetches its configuration once. The first
    [load] asks the server, takes the locales and the prefix from the
    answer and sets [_dataLoaded]; a later [load] asks nothing and keeps
    the locales and the prefix of the first, whatever the server would
    answer then. *)
Theorem static_loader_fetches_once
    (provider : TranslateService -> string -> string)
    (data1 data2 : StaticParserLoader.ILocalizeRouteConfig)
    (routes1 routes2 : Routes) (st : Parser) :
  let ld1 :=
    (StaticParserLoader.load provider data1 routes1
       (StaticParserLoader.new_loader st)).1 in
  let ld2 := (StaticParserLoader.load provider data2 routes2 ld1).1 in
  StaticParserLoader._dataLoaded ld1 = true
  ∧ StaticParserLoader.http_gets ld1 = 1
  ∧ locales (StaticParserLoader.parser ld1)
    = StaticParserLoader.cfg_locales data1
  ∧ prefix (StaticParserLoader.parser ld1)
    = StaticParserLoader.cfg_prefix data1
  ∧ StaticParserLoader.http_gets ld2 = 1
  ∧ locales (StaticParserLoader.parser ld2)
    = StaticParserLoader.cfg_locales data1
  ∧ prefix (StaticParserLoader.parser ld2)
    = StaticParserLoader.cfg_prefix data1.
Proof.
  unfold StaticParserLoader.load, StaticParserLoader.new_loader. simpl.
  pose proof (init_keeps_config provider routes1
                (set_config (StaticParserLoader.cfg_locales data1)
                   (StaticParserLoader.cfg_prefix data1) st)) as [Hl1 Hp1].
  destruct (init provider routes1 _) as [st1 ok1]. simpl in *.
  pose proof (init_keeps_config provider routes2 st1) as [Hl2 Hp2].
  destruct (init provider routes2 st1) as [st2 ok2]. simpl in *.
  repeat split; congruence.
Qed.

(** ** The route-change handler *)

(** X13: the route-change handler either leaves the parser as it is (the
    event is no navigation start, or its url carries no non-empty locale
    of the set, or the locale is the active one), or it switches to the
    locale of the url, which is a member of the locale set, and ends at
    [subscribe] of the parser's promise: the handler itself never fires
    the route change event, which is left to its subscriber. *)
Theorem routeChanged_effect
    (provider : TranslateService -> string -> string)
    (event : RouterEvent) (st : Parser) :
  (Legacy._routeChanged provider event st = (st, true)
   ∧ (ev_isNavigationStart event = false
      ∨ ∀ l, getLocationLang (ev_url event) st = Some l →
             l = "" ∨ Some l = currentLang st))
  ∨ (∃ l,
       ev_isNavigationStart event = true
       ∧ getLocationLang (ev_url event) st = Some l
       ∧ l ∈ locales st ∧ l ≠ "" ∧ Some l ≠ currentLang st
       ∧ (Legacy._routeChanged provider event st).2 = false
       ∧ currentLang (Legacy._routeChanged provider event st).1 = Some l
       ∧ trace (Legacy._routeChanged provider event st).1
         = trace st ++ [TranslateUse (Some l); SetCurrentLang (Some l)]
             ++ (if window_defined st then [StorageSetItem l] else [])).
Proof.
  unfold Legacy._routeChanged.
  destruct (getLocationLang (ev_url event) st) as [l|] eqn:Hloc.
  2:{ left. split; [done|]. by right. }
  destruct (ev_isNavigationStart event) eqn:Hnav.
  2:{ left. split; [done|]. by left. }
  destruct (Js.truthy l) eqn:Ht.
  2:{ left. split; [done|]. right. intros l' [= <-]. left. by destruct l. }
  simpl. case_bool_decide as Hne.
  2:{ left. split; [done|]. right. intros l' [= <-]. right.
      by destruct (decide (Some l = currentLang st)). }
  right. exists l.
  pose proof (translateRoutes_trace provider (Some l) st)
    as (Htrace & Hcur & _).
  destruct (translateRoutes provider (Some l) st) as [st1 ok]. simpl in *.
  split; [done|]. split; [done|].
  split; [by eapply getLocationLang_member|].
  split; [by intros ->|]. split; [done|].
  by destruct ok.
Qed.

(** ** The url rewriting, further *)

Lemma indexOf_zero_inv (l : list string) (x : string) :
  Js.indexOf l x = 0%Z → l !! 0 = Some x.
Proof.
  destruct l as [|y l]; simpl; [done|].
  case_decide; [by subst|].
  assert (Hge : ∀ l', (-1 <= Js.indexOf l' x)%Z).
  { clear. induction l' as [|z l' IH']; simpl; [lia|].
    case_decide; [lia|].
    destruct (Z.eqb_spec (Js.indexOf l' x) (-1)); lia. }
  specialize (Hge l).
  destruct (Z.eqb_spec (Js.indexOf l x) (-1)); lia.
Qed.

Lemma indexOf_one_inv (l : list string) (x : string) :
  Js.indexOf l x = 1%Z → l !! 1 = Some x.
Proof.
  destruct l as [|y l]; simpl; [done|].
  case_decide; [done|].
  destruct (Z.eqb_spec (Js.indexOf l x) (-1)); [done|].
  intros Hone. apply indexOf_zero_inv. lia.
Qed.

(** X14: the url rewriting leaves the url as it is when the locale is
    not the default one and is already a segment of the url, and when it
    is the default one but is neither the first segment nor the second
    segment behind an empty first one. *)
Theorem prefixPolicy_unchanged (lang defaultLang url : string) :
  (lang ≠ defaultLang ∧ lang ∈ Js.split slash url)
  ∨ (lang = defaultLang
     ∧ Js.split slash url !! 0 ≠ Some lang
     ∧ ¬ (Js.split slash url !! 0 = Some ""
          ∧ Js.split slash url !! 1 = Some lang)) →
  prefixPolicy (Some lang) defaultLang url = url.
Proof.
  unfold prefixPolicy. set (segments := Js.split slash url).
  intros [[Hne Hin] | (-> & H0 & H1)].
  - rewrite decide_False by congruence.
    apply indexOf_member in Hin. apply Z.eqb_neq in Hin. rewrite Hin.
    apply join_split.
  - rewrite decide_True by done.
    destruct (Z.eqb_spec (Js.indexOf segments defaultLang) 0) as [Hz|Hz].
    { by apply indexOf_zero_inv in Hz. }
    destruct (Z.eqb_spec (Js.indexOf segments defaultLang) 1) as [Ho|Ho];
      simpl; [|apply join_split].
    case_bool_decide as Hempty; [|apply join_split].
    destruct H1. split; [done|]. by apply indexOf_one_inv.
Qed.

Lemma prefixPolicy_unchanged_witness :
  prefixPolicy (Some "fr") "en" "/fr/a-propos" = "/fr/a-propos".
Proof.
  apply (prefixPolicy_unchanged "fr" "en" "/fr/a-propos").
  left. split; [discriminate|]. vm_compute. by right; left.
Defined.

(** X15: stripping undoes injecting. For a locale without ['/'] that is
    not a segment of the url, the url rewritten with the locale as a
    non-default one, and then rewritten again with that locale as the
    default one, is the url itself. *)
Theorem prefixPolicy_inject_strip (lang defaultLang url : string) :
  lang ≠ defaultLang → no_slash lang = true → lang ∉ Js.split slash url →
  prefixPolicy (Some lang) lang (prefixPolicy (Some lang) defaultLang url)
  = url.
Proof.
  intros Hne Hslash Hnot.
  pose proof (split_no_slash url) as Hsegs.
  pose proof (join_split url) as Hurl.
  assert (Hfirst :
            prefixPolicy (Some lang) defaultLang url
            = Js.join "/"
                (if bool_decide (Js.split slash url !! 0 = Some "")
                 then "" :: lang :: drop 1 (Js.split slash url)
                 else lang :: Js.split slash url)).
  { unfold prefixPolicy. rewrite decide_False by congruence.
    rewrite (indexOf_absent _ _ Hnot). simpl.
    unfold Js.slice, Js.slice_from.
    case_bool_decide as H0; simpl; [|done].
    destruct (Js.split slash url) as [|s0 ss]; [done|].
    by injection H0 as ->. }
  rewrite Hfirst. clear Hfirst.
  destruct (Js.split slash url) as [|s0 ss] eqn:Hsplit.
  { by apply split_nonempty in Hsplit. }
  apply Forall_cons in Hsegs as [Hs0 Hss].
  case_bool_decide as H0.
  - injection H0 as ->.
    assert (Hl : lang ≠ "").
    { intros ->. apply Hnot. left. }
    cbn [drop]. rewrite drop_0. unfold prefixPolicy. cbv zeta. rewrite decide_True by done.
    rewrite split_join by (done || by repeat constructor).
    rewrite (indexOf_second ("" :: lang :: ss) lang)
      by (done || (simpl; congruence)).
    rewrite <- Hurl. by cbn.
  - unfold prefixPolicy. cbv zeta. rewrite decide_True by done.
    rewrite split_join by (done || by repeat constructor).
    rewrite (indexOf_head (lang :: s0 :: ss) lang) by done.
    rewrite <- Hurl. by cbn.
Qed.

Lemma prefixPolicy_inject_strip_witness :
  prefixPolicy (Some "fr") "fr" (prefixPolicy (Some "fr") "en" "/a-propos")
  = "/a-propos".
Proof.
  apply (prefixPolicy_inject_strip "fr" "en" "/a-propos").
  - discriminate.
  - reflexivity.
  - vm_compute. intros H.
    repeat (apply elem_of_cons in H as [H|H]; [discriminate H|]).
    by apply elem_of_nil in H.
Defined.

(** ** The url of a snapshot *)

Lemma Snapshot_chain_ind (P : ActivatedRouteSnapshot → Prop) :
  (∀ rc u, P (mkSnapshot rc u None)) →
  (∀ rc u child, P child → P (mkSnapshot rc u (Some child))) →
  ∀ s, P s.
Proof.
  intros Hleaf Hnode. fix IH 1. intros [rc u [child|]].
  - apply Hnode, IH.
  - apply Hleaf.
Qed.

Lemma substitute_lookup (url segs : list string) :
  substitute url segs = None
  ↔ ∃ i s, segs !! i = Some s ∧ is_placeholder s = true ∧ length url ≤ i.
Proof.
  unfold substitute. rewrite mapM_None, Exists_exists. split.
  - intros (o & Hin & Ho). simpl in Ho. subst o.
    apply list_elem_of_lookup in Hin as [i Hi].
    rewrite list_lookup_imap in Hi.
    destruct (segs !! i) as [s|] eqn:Hs; [|done]. simpl in Hi.
    destruct (is_placeholder s) eqn:Hp; [|done].
    exists i, s. split; [done|]. split; [done|]. apply lookup_ge_None.
    by destruct (url !! i).
  - intros (i & s & Hs & Hp & Hlen). exists None. split; [|done].
    apply list_elem_of_lookup. exists i.
    rewrite list_lookup_imap, Hs. simpl. rewrite Hp. f_equal.
    by apply lookup_ge_None.
Qed.

Lemma substitute_plain (url segs : list string) :
  (∀ s, s ∈ segs → is_placeholder s = false) →
  substitute url segs = Some segs.
Proof.
  intros Hplain. unfold substitute. apply mapM_Some.
  apply Forall2_same_length_lookup. split; [by rewrite length_imap|].
  intros i o s Ho Hs. rewrite list_lookup_imap, Hs in Ho. simpl in Ho.
  rewrite Hplain in Ho by (by eapply list_elem_of_lookup_2).
  by injection Ho as <-.
Qed.

(** X16: the segment of one snapshot node. Without a route it is the
    empty string; a route without a path makes the call throw; a wildcard
    route gives the non-empty url segments of the node joined with ['/'].
    For any other path the call throws exactly when a placeholder of the
    path stands at an index where the node has no url segment, and a
    path without placeholders is returned as it is, whatever the url. *)
Theorem parseSegmentValue_cases (live : Routes)
    (snapshot : ActivatedRouteSnapshot) :
  match config live snapshot with
  | None => Service.parseSegmentValue live snapshot = Some ""
  | Some rc =>
      match path rc with
      | None => Service.parseSegmentValue live snapshot = None
      | Some p =>
          (p = "**" →
           Service.parseSegmentValue live snapshot
           = Some (Js.join "/"
                     (filter (fun s => s ≠ "") (url snapshot))))
          ∧ (p ≠ "**" →
             (Service.parseSegmentValue live snapshot = None
              ↔ ∃ i s, Js.split slash p !! i = Some s
                       ∧ is_placeholder s = true
                       ∧ length (url snapshot) ≤ i)
             ∧ ((∀ s, s ∈ Js.split slash p → is_placeholder s = false) →
                Service.parseSegmentValue live snapshot = Some p))
      end
  end.
Proof.
  unfold Service.parseSegmentValue.
  destruct (config live snapshot) as [rc|]; [|done].
  destruct (path rc) as [p|] eqn:Hp.
  2:{ by rewrite decide_False. }
  split.
  - intros ->. rewrite decide_True by done. do 2 f_equal.
    apply list_filter_iff. intros s. split.
    + intros Ht ->. done.
    + intros Hs. by destruct s.
  - intros Hne. rewrite decide_False by congruence. simpl. split.
    + rewrite <- substitute_lookup.
      destruct (substitute (url snapshot) (Js.split slash p)); by split.
    + intros Hplain. rewrite substitute_plain by done. simpl.
      by rewrite join_split.
Qed.

Lemma parseSegmentValue_agree (live : Routes)
    (snapshot : ActivatedRouteSnapshot) :
  config live snapshot ≫= path ≠ Some "**" →
  Service.parseSegmentValue live snapshot
  = Legacy.parseSegmentValue live snapshot.
Proof.
  unfold Service.parseSegmentValue, Legacy.parseSegmentValue.
  destruct (config live snapshot) as [rc|]; [|done]. simpl.
  intros Hne. by rewrite decide_False.
Qed.

Lemma traverse_agree (live : Routes) (snapshot : ActivatedRouteSnapshot) :
  no_wildcard live snapshot = true →
  Service.traverseRouteSnapshot live snapshot
  = Legacy.traverseRouteSnapshot live snapshot.
Proof.
  induction snapshot as [rc u|rc u child IH] using Snapshot_chain_ind;
    simpl; intros [Hself Hchild]%andb_true_iff;
    apply negb_true_iff, bool_decide_eq_false in Hself.
  - by apply parseSegmentValue_agree.
  - assert (Hc : config live child ≫= path ≠ Some "**").
    { destruct child as [rc' u' fc']. simpl in Hchild.
      apply andb_true_iff in Hchild as [Hc _].
      by apply negb_true_iff, bool_decide_eq_false in Hc. }
    rewrite (parseSegmentValue_agree live (mkSnapshot rc u (Some child)))
      by done.
    destruct (Js.otruthy (config live child ≫= path)); [|done].
    rewrite decide_True by done. by rewrite IH.
Qed.

(** X17: on a snapshot without wildcard routes, the service with
    settings, with the always-prefix setting on and [navigateByUrl],
    changes the language exactly as the service without settings does:
    the subscribers of the two lead to the same state with the same
    navigation, or both throw, and so do the two calls. *)
Theorem changeLanguage_agrees_with_legacy
    (settings : LocalizeRouterSettings) (defaultLang : string)
    (snapshot : ActivatedRouteSnapshot) (st : Parser) :
  alwaysSetPrefix settings = true →
  (∀ live, routes st = Some live → no_wildcard live snapshot = true) →
  Service.changeLanguage_subscriber settings defaultLang snapshot false st
  = Legacy.changeLanguage_subscriber snapshot st
  ∧ ∀ (provider : TranslateService -> string -> string) (lang : string),
      Service.changeLanguage provider settings defaultLang snapshot lang
        false st
      = Legacy.changeLanguage provider snapshot lang st.
Proof.
  intros Hprefix Hwild. split.
  - unfold Service.changeLanguage_subscriber,
      Legacy.changeLanguage_subscriber.
    destruct (routes st) as [live|]; [|done]. simpl.
    rewrite (traverse_agree live snapshot) by (by apply Hwild).
    destruct (Legacy.traverseRouteSnapshot live snapshot); [|done].
    by rewrite Hprefix.
  - intros provider lang.
    unfold Service.changeLanguage, Legacy.changeLanguage.
    case_decide; [done|].
    by destruct (translateRoutes provider (Some lang) st) as [st1 [|]].
Qed.

(** At [/fr/a-propos], on the parser as the translation to [en] leaves
    it, both subscribers navigate to [/en/about]. *)
Lemma changeLanguage_agrees_with_legacy_witness :
  Service.changeLanguage_subscriber (mkSettings true) "en"
    (scenario_snapshot "fr" "a-propos") false
    (translateRoutes scenario_provider (Some "en")
       (scenario_loaded "/fr/a-propos")).1
  = Legacy.changeLanguage_subscriber (scenario_snapshot "fr" "a-propos")
      (translateRoutes scenario_provider (Some "en")
         (scenario_loaded "/fr/a-propos")).1
  ∧ last
      (trace
         (Legacy.changeLanguage_subscriber (scenario_snapshot "fr" "a-propos")
            (translateRoutes scenario_provider (Some "en")
               (scenario_loaded "/fr/a-propos")).1).1)
    = Some (NavigateByUrl "/en/about").
Proof.
  split; [|reflexivity].
  apply (changeLanguage_agrees_with_legacy (mkSettings true) "en"
           (scenario_snapshot "fr" "a-propos")
           (translateRoutes scenario_provider (Some "en")
              (scenario_loaded "/fr/a-propos")).1).
  - reflexivity.
  - intros live Hlive. vm_compute in Hlive. injection Hlive as <-.
    reflexivity.
Defined.

(** ** Links *)

Section RouteLinksFacts.

Context {A R : Type}.
Variable parser_translateRoute : string -> R.
Variable render : R -> string.
Variable urlPrefix : string.

Lemma push_segments_from (path : list (RouteLinks.Segment A)) :
  ∀ (result : list (RouteLinks.Translated A R)) (index : nat),
  foldl (RouteLinks.push_segment parser_translateRoute render urlPrefix)
    (result, index) path
  = (result
       ++ imap (fun i segment =>
                  match segment with
                  | RouteLinks.SegString s =>
                      if (index + i =? 0) && RouteLinks.starts_with_slash s
                      then RouteLinks.Prefixed
                             ("/" +:+ urlPrefix
                              +:+ render (parser_translateRoute s))
                      else RouteLinks.Result (parser_translateRoute s)
                  | RouteLinks.SegOther a => RouteLinks.Other a
                  end) path,
     index + length path).
Proof.
  induction path as [|segment path IH]; intros result index.
  - simpl. by rewrite app_nil_r, Nat.add_0_r.
  - simpl. rewrite IH. rewrite <- app_assoc. simpl.
    rewrite Nat.add_0_r. f_equal; [|lia]. do 2 f_equal.
    apply imap_ext. intros i x _. simpl.
    destruct x as [s|a]; [|done].
    assert ((S index + i =? 0) = false) as Hl by (apply Nat.eqb_neq; lia).
    assert ((index + S i =? 0) = false) as Hr by (apply Nat.eqb_neq; lia).
    simpl in Hl. by rewrite ?Hl, ?Hr.
Qed.

(** X18: [translateRoute] on an array yields an array of the same length
    in the same order; a segment that is no string is handed on as it is;
    a string segment is translated, and the locale prefix is put in front
    of it only at index 0 and only if it begins with ['/']. On a string,
    the prefix is put in front exactly when the path begins with ['/']. *)
Theorem translateRoute_array_elements (path : list (RouteLinks.Segment A)) :
  length (RouteLinks.translateRoute_array parser_translateRoute render
            urlPrefix path) = length path
  ∧ (∀ i a, path !! i = Some (RouteLinks.SegOther a) →
       RouteLinks.translateRoute_array parser_translateRoute render urlPrefix
         path !! i = Some (RouteLinks.Other a))
  ∧ (∀ i s, path !! i = Some (RouteLinks.SegString s) →
       RouteLinks.translateRoute_array parser_translateRoute render urlPrefix
         path !! i
       = Some (if (i =? 0) && RouteLinks.starts_with_slash s
               then RouteLinks.Prefixed
                      ("/" +:+ urlPrefix +:+ render (parser_translateRoute s))
               else RouteLinks.Result (parser_translateRoute s)))
  ∧ (∀ s, RouteLinks.translateRoute_array parser_translateRoute render
            urlPrefix [@RouteLinks.SegString A s]
          = [RouteLinks.translateRoute_string parser_translateRoute render
               urlPrefix s]).
Proof.
  unfold RouteLinks.translateRoute_array. rewrite push_segments_from.
  simpl. split; [by rewrite length_imap|].
  split; [|split].
  - intros i a Hi. by rewrite list_lookup_imap, Hi.
  - intros i s Hi. by rewrite list_lookup_imap, Hi.
  - intros s. unfold RouteLinks.translateRoute_string. simpl.
    by destruct (RouteLinks.starts_with_slash s).
Qed.

End RouteLinksFacts.

(** ** Pending translations, further *)

Lemma pending_run_complete_witness :
  run (scenario_provider (mkTranslateService (Some "fr") (Some "en")))
    "ROUTES."
    (mkPending scenario_routes
       [mkTask "about" [0] PropPath; mkTask "user/:id" [1] PropPath;
        mkTask "about" [1; 0] PropPath])
    [mkTask "about" [0] PropPath; mkTask "user/:id" [1] PropPath;
     mkTask "about" [1; 0] PropPath]
  = mkPending
      (_translateRouteTree
         (scenario_provider (mkTranslateService (Some "fr") (Some "en")))
         "ROUTES." scenario_routes (Some scenario_routes)).1 [].
Proof.
  destruct (pending_run_complete
              (scenario_provider (mkTranslateService (Some "fr") (Some "en")))
              "ROUTES." scenario_routes (Some scenario_routes)
              [mkTask "about" [0] PropPath; mkTask "user/:id" [1] PropPath]
              [mkTask "about" [0] PropPath; mkTask "user/:id" [1] PropPath;
               mkTask "about" [1; 0] PropPath]) as [Hrun _].
  - reflexivity.
  - exact Hrun.
Defined.

Lemma startRouteTree_promises_witness :
  Forall (fun t => length (destination t) = 1)
    [mkTask "about" [0] PropPath; mkTask "user/:id" [1] PropPath].
Proof.
  apply (startRouteTree_promises scenario_routes (Some scenario_routes)
           [mkTask "about" [0] PropPath; mkTask "user/:id" [1] PropPath]
           [mkTask "about" [0] PropPath; mkTask "user/:id" [1] PropPath;
            mkTask "about" [1; 0] PropPath]).
  reflexivity.
Defined.

(** X21: for an array of routes none of which has children, the promise
    [_translateRouteTree] returns is reliable: in whatever order the
    provider answers, once the promise has settled no translation is
    pending. *)
Theorem flat_array_settles_all (get : string -> string) (prefix : string)
    (routes : Routes) (originals : option Routes)
    (promises started sched : list Task) :
  Forall (fun r => children r = None) routes →
  startRouteTree routes originals = Some (promises, started) →
  settled promises (run get prefix (mkPending routes started) sched) = true →
  pending (run get prefix (mkPending routes started) sched) = [].
Proof.
  intros Hflat Hstart Hsettled.
  rewrite (startRouteTree_flat _ _ _ _ Hflat Hstart) in Hsettled.
  by apply settled_all_started.
Qed.

Lemma flat_array_settles_all_witness :
  pending
    (run (scenario_provider (mkTranslateService (Some "fr") (Some "en")))
       "ROUTES."
       (mkPending
          [mkRoute (Some "about") None None None;
           mkRoute (Some "home") (Some "about") None None]
          [mkTask "about" [0] PropPath; mkTask "home" [1] PropPath;
           mkTask "about" [1] PropRedirectTo])
       [mkTask "about" [1] PropRedirectTo; mkTask "about" [0] PropPath;
        mkTask "home" [1] PropPath])
  = [].
Proof.
  apply (flat_array_settles_all
           (scenario_provider (mkTranslateService (Some "fr") (Some "en")))
           "ROUTES."
           [mkRoute (Some "about") None None None;
            mkRoute (Some "home") (Some "about") None None]
           (Some [mkRoute (Some "about") None None None;
                  mkRoute (Some "home") (Some "about") None None])
           [mkTask "about" [0] PropPath; mkTask "home" [1] PropPath;
            mkTask "about" [1] PropRedirectTo]).
  - repeat constructor.
  - reflexivity.
  - reflexivity.
Defined.

(** ** A locale change that throws *)

(** X22: when [changeLanguage] to another locale throws, in the
    translation or at [subscribe], nothing is navigated, but the parser
    has been switched all the same: the active locale is the new one and
    the calls made are those of [translateRoutes]. *)
Theorem changeLanguage_throw_switches
    (provider : TranslateService -> string -> string)
    (settings : LocalizeRouterSettings) (defaultLang : string)
    (snapshot : ActivatedRouteSnapshot) (lang : string)
    (useNavigateMethod : bool) (st st' : Parser) :
  Service.changeLanguage provider settings defaultLang snapshot lang
    useNavigateMethod st = (st', false) →
  Some lang ≠ currentLang st
  ∧ currentLang st' = Some lang
  ∧ trace st'
    = trace st ++ [TranslateUse (Some lang); SetCurrentLang (Some lang)]
        ++ (if window_defined st then [StorageSetItem lang] else []).
Proof.
  unfold Service.changeLanguage. case_decide as Hsame; [done|].
  pose proof (translateRoutes_trace provider (Some lang) st)
    as (Htrace & Hcur & _).
  destruct (translateRoutes provider (Some lang) st) as [st1 [|]];
    simpl in *; by intros [= <-].
Qed.

(** From [fr] to [en] at [/fr/user/7]. *)
Lemma changeLanguage_throw_switches_witness :
  currentLang
    (Service.changeLanguage scenario_provider (mkSettings true) "en"
       (mkSnapshot None []
          (Some (mkSnapshot (Some [1]) ["fr"]
                   (Some (mkSnapshot (Some [1; 1]) [] None)))))
       "en" false (scenario_loaded "/fr/user/7")).1
  = Some "en".
Proof.
  destruct (changeLanguage_throw_switches scenario_provider (mkSettings true)
              "en"
              (mkSnapshot None []
                 (Some (mkSnapshot (Some [1]) ["fr"]
                          (Some (mkSnapshot (Some [1; 1]) [] None)))))
              "en" false (scenario_loaded "/fr/user/7")
              (Service.changeLanguage scenario_provider (mkSettings true) "en"
                 (mkSnapshot None []
                    (Some (mkSnapshot (Some [1]) ["fr"]
                             (Some (mkSnapshot (Some [1; 1]) [] None)))))
                 "en" false (scenario_loaded "/fr/user/7")).1)
    as (_ & Hcur & _).
  - vm_compute. reflexivity.
  - exact Hcur.
Defined.
